(** * Editor XML-TEI UniMC: validation, formatting and edit history

    A shallow embedding of the logic of [src/tei-editor.tsx] and of the two
    reduced variants of the same component found in [src/unnamed/part_000].
    The three components share [addToHistory], [undo], [redo],
    [validateXMLSyntax], [formatXML] and [handleContentChange] verbatim; they
    differ only in [validateTEI], which is embedded twice (the itemised
    checker of [tei-editor.tsx] at top level, the reduced checker of
    [part_000] in [Module Reduced]).

    The browser objects the component calls ([DOMParser], [XMLSerializer]) are
    not part of the repository: they are taken as a parameter, a record
    [Platform]. *)

From Stdlib Require Import String Ascii.
From Stdlib Require Import List NArith Bool Arith Lia.
From Equations Require Import Equations.
Import ListNotations.

(* ===================================================================== *)
(** * JavaScript strings *)
(* ===================================================================== *)

(** A JavaScript string is a sequence of UTF-16 code units. *)
Abbreviation char := N (only parsing).
Abbreviation js_string := (list N) (only parsing).

(** [js "abc"] is the JavaScript string of an ASCII literal. *)
Definition js (s : string) : js_string := map N_of_ascii (list_ascii_of_string s).

(** Strict equality [===] of two strings. *)
Fixpoint js_eqb (a b : js_string) : bool :=
  match a, b with
  | [], [] => true
  | x :: a', y :: b' => N.eqb x y && js_eqb a' b'
  | _, _ => false
  end.

(** A value that is a string or [undefined] ([None]): the result of reading
    an array slot, and the content of the [xmlContent] state cell. *)
Definition js_value := option js_string.

(** [ToString] of such a value, as applied by [parseFromString] to its first
    argument. *)
Definition ToString (v : js_value) : js_string :=
  match v with
  | Some s => s
  | None => js "undefined"
  end.

(** [String.prototype.startsWith]. *)
Fixpoint startsWith (p s : js_string) : bool :=
  match p, s with
  | [], _ => true
  | x :: p', y :: s' => N.eqb x y && startsWith p' s'
  | _ :: _, [] => false
  end.

(* ===================================================================== *)
(** * The DOM as the component reads it *)
(* ===================================================================== *)

(** Nodes that are not elements. *)
Inductive CharacterData :=
| Text (data : js_string)
| CDATASection (data : js_string)
| Comment (data : js_string)
| ProcessingInstruction (target data : js_string).

(** An element of an XML document: its qualified name split into prefix and
    local name, its namespace URI ([None] is [null]), its attributes and its
    child nodes in document order. *)
#[warnings="-register-all"]
Inductive Element :=
  mkElement {
    prefix : option js_string;
    localName : js_string;
    namespaceURI : option js_string;
    attributes : list (js_string * js_string);
    childNodes : list (Element + CharacterData)
  }.

(** [Element.tagName]: in an XML document, the qualified name. *)
Definition tagName (e : Element) : js_string :=
  match prefix e with
  | Some p => p ++ js ":" ++ localName e
  | None => localName e
  end.

(** The element itself followed by its descendant elements, in document
    (pre-)order. *)
Fixpoint inclusive_descendants (e : Element) : list Element :=
  e :: flat_map (fun c => match c with
                          | inl k => inclusive_descendants k
                          | inr _ => []
                          end) (childNodes e).

(** The descendant elements of [e], in document order, [e] excluded. *)
Definition descendants (e : Element) : list Element :=
  tl (inclusive_descendants e).

(** [Element.getElementsByTagName(name)]: the descendants whose qualified
    name is [name], in document order. *)
Definition getElementsByTagName (e : Element) (name : js_string) : list Element :=
  filter (fun k => js_eqb (tagName k) name) (descendants e).

(** [collection[0]]: the first item, or [undefined]. *)
Definition item0 {A} (l : list A) : option A := hd_error l.

(** Completion of a call that may throw: a value, or an [Error] whose
    [message] is kept. *)
Inductive completion (A : Type) :=
| Normal (a : A)
| Throw (message : js_string).
Arguments Normal {A} a.
Arguments Throw {A} message.

Definition bind {A B} (c : completion A) (k : A -> completion B) : completion B :=
  match c with
  | Normal a => k a
  | Throw m => Throw m
  end.

Notation "x <- c ;; k" := (bind c (fun x => k))
  (at level 61, c at next level, right associativity).

(** The browser: the document objects it hands out, what the component reads
    from them, the parser and the serialiser. *)
Record Platform := {
  Document : Type;
  (** [new DOMParser().parseFromString(s, "text/xml")] *)
  parseFromString : js_string -> completion Document;
  (** [xmlDoc.documentElement] ([None] is [null]) *)
  documentElement : Document -> option Element;
  (** [new XMLSerializer().serializeToString(xmlDoc)] *)
  serializeToString : Document -> completion js_string
}.

(** [Document.getElementsByTagName(name)]: every element of the document
    with that qualified name, the document element included. *)
Definition docGetElementsByTagName (P : Platform) (d : Document P) (name : js_string)
  : list Element :=
  match documentElement P d with
  | Some root => filter (fun k => js_eqb (tagName k) name) (inclusive_descendants root)
  | None => []
  end.

(** [Node.textContent] of an element: the concatenated data of its text and
    CDATA descendants. *)
Fixpoint textContent (e : Element) : js_string :=
  flat_map (fun c => match c with
                     | inl k => textContent k
                     | inr (Text d) => d
                     | inr (CDATASection d) => d
                     | inr _ => []
                     end) (childNodes e).

(* ===================================================================== *)
(** * Component state *)
(* ===================================================================== *)

Inductive MessageType := error | success | warning.

Record ValidationMessage := {
  type : MessageType;
  message : js_string
}.

Definition is_error (m : ValidationMessage) : bool :=
  match type m with error => true | _ => false end.

Definition is_success (m : ValidationMessage) : bool :=
  match type m with success => true | _ => false end.

(** The state cells of the component: the two [useState] cells and the two
    [useRef] cells. *)
Record Editor := {
  xmlContent : js_value;
  validationMessages : list ValidationMessage;
  historyRef : list js_string;
  currentIndexRef : nat
}.

Definition setXmlContent (v : js_value) (st : Editor) : Editor :=
  {| xmlContent := v;
     validationMessages := validationMessages st;
     historyRef := historyRef st;
     currentIndexRef := currentIndexRef st |}.

Definition setValidationMessages (ms : list ValidationMessage) (st : Editor) : Editor :=
  {| xmlContent := xmlContent st;
     validationMessages := ms;
     historyRef := historyRef st;
     currentIndexRef := currentIndexRef st |}.

(** The component as first rendered: the history is seeded with the initial
    document and the cursor is 0. *)
Definition initial (doc : js_string) : Editor :=
  {| xmlContent := Some doc;
     validationMessages := [];
     historyRef := [doc];
     currentIndexRef := 0 |}.

(* ===================================================================== *)
(** * Edit history *)
(* ===================================================================== *)

(** [addToHistory]: [slice(0, currentIndex + 1)] is [firstn], which like
    [slice] stops at the end of the array; the cursor becomes
    [newHistory.length - 1]. *)
Definition addToHistory (content : js_string) (st : Editor) : Editor :=
  let newHistory := firstn (currentIndexRef st + 1) (historyRef st) ++ [content] in
  {| xmlContent := xmlContent st;
     validationMessages := validationMessages st;
     historyRef := newHistory;
     currentIndexRef := length newHistory - 1 |}.

Definition undo (st : Editor) : Editor :=
  if 0 <? currentIndexRef st then
    let i := currentIndexRef st - 1 in
    {| xmlContent := nth_error (historyRef st) i;
       validationMessages := validationMessages st;
       historyRef := historyRef st;
       currentIndexRef := i |}
  else st.

(** With an empty array [length - 1] is -1 in JavaScript and no cursor is
    below it; here it is 0 and no cursor is below it either. *)
Definition redo (st : Editor) : Editor :=
  if currentIndexRef st <? length (historyRef st) - 1 then
    let i := currentIndexRef st + 1 in
    {| xmlContent := nth_error (historyRef st) i;
       validationMessages := validationMessages st;
       historyRef := historyRef st;
       currentIndexRef := i |}
  else st.

Definition handleContentChange (newContent : js_string) (st : Editor) : Editor :=
  addToHistory newContent (setXmlContent (Some newContent) st).

(* ===================================================================== *)
(** * Validation *)
(* ===================================================================== *)

Definition push (messages : list ValidationMessage) (m : ValidationMessage) :=
  messages ++ [m].

Definition err (text : js_string) : ValidationMessage :=
  {| type := error; message := text |}.

Definition ok (text : js_string) : ValidationMessage :=
  {| type := success; message := text |}.

(** The letter e with grave accent of the Italian messages. *)
Definition e_grave : char := 232%N.

Definition msg_syntax_fallback : js_string := js "Errore di parsing XML".
Definition msg_syntax_valid : js_string :=
  js "La sintassi XML " ++ [e_grave] ++ js " valida".
Definition msg_syntax_prefix : js_string := js "Errore di parsing XML: ".
Definition msg_tei_prefix : js_string := js "Errore durante la validazione TEI: ".
Definition msg_root : js_string := js "L'elemento radice deve essere <TEI>".
Definition msg_namespace : js_string := js "Namespace TEI mancante o non corretto".
Definition msg_teiHeader : js_string := js "Elemento <teiHeader> mancante".
Definition msg_text : js_string := js "Elemento <text> mancante".
Definition msg_fileDesc : js_string := js "Elemento <fileDesc> mancante in teiHeader".
Definition msg_in_fileDesc (elem : js_string) : js_string :=
  js "Elemento <" ++ elem ++ js "> mancante in fileDesc".
Definition msg_title : js_string := js "Elemento <title> mancante in titleStmt".
Definition msg_body : js_string := js "Elemento <body> mancante in text".
Definition msg_conforms : js_string :=
  js "Il documento " ++ [e_grave] ++ js " conforme alle specifiche TEI".
Definition msg_fix_syntax : js_string := js "Correggi prima gli errori di sintassi XML".
Definition msg_formatted : js_string := js "Documento formattato correttamente".
Definition msg_header_or_text : js_string :=
  js "Elementi obbligatori mancanti (teiHeader o text)".

Definition TEI_NS : js_string := js "http://www.tei-c.org/ns/1.0".

Definition is_none {A} (o : option A) : bool :=
  match o with None => true | Some _ => false end.

(** [a || b] on a string [a]: the empty string is falsy. *)
Definition or_else (a b : js_string) : js_string :=
  match a with [] => b | _ => a end.

(** [validateXMLSyntax]: the body of the [try] block gives the messages and
    the returned boolean. *)
Definition validateXMLSyntax_try (P : Platform) (content : js_value)
  : completion (list ValidationMessage * bool) :=
  xmlDoc <- parseFromString P (ToString content) ;;
  match docGetElementsByTagName P xmlDoc (js "parsererror") with
  | parserError0 :: _ =>
      Normal ([err (or_else (textContent parserError0) msg_syntax_fallback)], false)
  | [] => Normal ([ok msg_syntax_valid], true)
  end.

Definition validateXMLSyntax (P : Platform) (st : Editor) : Editor * bool :=
  match validateXMLSyntax_try P (xmlContent st) with
  | Normal (ms, b) => (setValidationMessages ms st, b)
  | Throw m => (setValidationMessages [err (msg_syntax_prefix ++ m)] st, false)
  end.

(** The parse of a text failed: the criterion [validateXMLSyntax] and
    [formatXML] use, a document holding a [parsererror] element, or an
    exception out of the parser. *)
Definition parse_failed (P : Platform) (s : js_string) : bool :=
  match parseFromString P s with
  | Normal d => negb (is_none (item0 (docGetElementsByTagName P d (js "parsererror"))))
  | Throw _ => true
  end.

Definition requiredInFileDesc : list js_string :=
  [js "titleStmt"; js "publicationStmt"; js "sourceDesc"].

(** The checks of [validateTEI] ([tei-editor.tsx]) that follow the root
    check, on the root element [tei] and the messages pushed so far. *)
Definition check_required (tei : Element) (messages : list ValidationMessage)
  : list ValidationMessage :=
  let teiHeader := item0 (getElementsByTagName tei (js "teiHeader")) in
  let text := item0 (getElementsByTagName tei (js "text")) in
  let messages := if is_none teiHeader then push messages (err msg_teiHeader) else messages in
  let messages := if is_none text then push messages (err msg_text) else messages in
  let messages :=
    match teiHeader with
    | Some teiHeader =>
        match item0 (getElementsByTagName teiHeader (js "fileDesc")) with
        | None => push messages (err msg_fileDesc)
        | Some fileDesc =>
            let messages :=
              fold_left (fun messages elem =>
                           if is_none (item0 (getElementsByTagName fileDesc elem))
                           then push messages (err (msg_in_fileDesc elem))
                           else messages)
                        requiredInFileDesc messages in
            match item0 (getElementsByTagName fileDesc (js "titleStmt")) with
            | Some titleStmt =>
                if is_none (item0 (getElementsByTagName titleStmt (js "title")))
                then push messages (err msg_title)
                else messages
            | None => messages
            end
        end
    | None => messages
    end in
  match text with
  | Some text =>
      if is_none (item0 (getElementsByTagName text (js "body")))
      then push messages (err msg_body)
      else messages
  | None => messages
  end.

Definition check_namespace (tei : Element) (messages : list ValidationMessage)
  : list ValidationMessage :=
  match namespaceURI tei with
  | Some ns => if js_eqb ns TEI_NS then messages else push messages (err msg_namespace)
  | None => push messages (err msg_namespace)
  end.

(** [if (messages.length === 0) messages.push(success)]. *)
Definition conclude (messages : list ValidationMessage) : list ValidationMessage :=
  match messages with
  | [] => push messages (ok msg_conforms)
  | _ => messages
  end.

(** The walk of [validateTEI] over the parsed document: the messages handed
    to [setValidationMessages]. *)
Definition checkStructure (root : option Element) : list ValidationMessage :=
  let messages := [] in
  match root with
  | None => push messages (err msg_root)
  | Some tei =>
      if negb (js_eqb (tagName tei) (js "TEI")) then push messages (err msg_root)
      else
        let messages := check_namespace tei messages in
        let messages := check_required tei messages in
        conclude messages
  end.

Definition validateTEI_try (P : Platform) (content : js_value)
  : completion (list ValidationMessage) :=
  xmlDoc <- parseFromString P (ToString content) ;;
  Normal (checkStructure (documentElement P xmlDoc)).

(** The messages [validateTEI] displays for a buffer content. *)
Definition validateTEI_messages (P : Platform) (content : js_value)
  : list ValidationMessage :=
  match validateTEI_try P content with
  | Normal ms => ms
  | Throw m => [err (msg_tei_prefix ++ m)]
  end.

Definition validateTEI (P : Platform) (st : Editor) : Editor :=
  setValidationMessages (validateTEI_messages P (xmlContent st)) st.

(** The reduced checker of the two components of [src/unnamed/part_000]. *)
Module Reduced.

Definition check_required (tei : Element) (messages : list ValidationMessage)
  : list ValidationMessage :=
  let teiHeader := item0 (getElementsByTagName tei (js "teiHeader")) in
  let text := item0 (getElementsByTagName tei (js "text")) in
  if is_none teiHeader || is_none text
  then push messages (err msg_header_or_text)
  else messages.

Definition checkStructure (root : option Element) : list ValidationMessage :=
  let messages := [] in
  match root with
  | None => push messages (err msg_root)
  | Some tei =>
      if negb (js_eqb (tagName tei) (js "TEI")) then push messages (err msg_root)
      else
        let messages := check_namespace tei messages in
        let messages := check_required tei messages in
        conclude messages
  end.

Definition validateTEI_try (P : Platform) (content : js_value)
  : completion (list ValidationMessage) :=
  xmlDoc <- parseFromString P (ToString content) ;;
  Normal (checkStructure (documentElement P xmlDoc)).

Definition validateTEI_messages (P : Platform) (content : js_value)
  : list ValidationMessage :=
  match validateTEI_try P content with
  | Normal ms => ms
  | Throw m => [err (msg_tei_prefix ++ m)]
  end.

Definition validateTEI (P : Platform) (st : Editor) : Editor :=
  setValidationMessages (validateTEI_messages P (xmlContent st)) st.

End Reduced.

(* ===================================================================== *)
(** * Formatting *)
(* ===================================================================== *)

Definition LT : char := 60%N.     (* < *)
Definition GT : char := 62%N.     (* > *)
Definition SLASH : char := 47%N.  (* / *)
Definition LF : char := 10%N.     (* \n *)
Definition SP : char := 32%N.     (* space *)

(** ECMAScript [LineTerminator]: LF, CR, LS, PS.  The dot of a regular
    expression matches every code unit but these. *)
Definition is_line_terminator (c : char) : bool :=
  (N.eqb c 10 || N.eqb c 13 || N.eqb c 8232 || N.eqb c 8233)%N.

(** ECMAScript [WhiteSpace]: TAB, VT, FF, SP, NBSP, ZWNBSP and the space
    separators of Unicode. *)
Definition is_white_space (c : char) : bool :=
  (N.eqb c 9 || N.eqb c 11 || N.eqb c 12 || N.eqb c 32 || N.eqb c 160
   || N.eqb c 65279 || N.eqb c 5760 || (N.leb 8192 c && N.leb c 8202)
   || N.eqb c 8239 || N.eqb c 8287 || N.eqb c 12288)%N.

(** The class [\s], which is also what [trim] strips. *)
Definition is_space (c : char) : bool :=
  is_white_space c || is_line_terminator c.

(** A regular expression tried at the head of a string: when it matches,
    the text that replaces the match and the length of the match less one
    (none of the three expressions of [formatXML] matches the empty
    string). *)
Definition matcher := js_string -> option (js_string * nat).

(** [s.replace(re, f)] for a global [re]: the matches are found left to
    right, each search resuming where the previous match ended; what lies
    between matches is copied. *)
Equations? replace_all (m : matcher) (s : js_string) : js_string by wf (length s) lt :=
  replace_all m [] := [];
  replace_all m (c :: t) with m (c :: t) := {
    | Some (r, n) := r ++ replace_all m (skipn n t);
    | None := c :: replace_all m t }.
Proof.
  rewrite length_skipn. simpl. lia.
Qed.

(** The longest prefix of code units satisfying [p]: a greedy starred
    class. *)
Fixpoint greedy (p : char -> bool) (s : js_string) : js_string :=
  match s with
  | c :: t => if p c then c :: greedy p t else []
  | [] => []
  end.

(** The first expression of [formatXML]: a [>] (group 1), a [<] (group 2)
    and the longest run of [/] (group 3), replaced by group 1, a line feed,
    group 2 and group 3. *)
Definition tag_gap : matcher := fun s =>
  match s with
  | c1 :: c2 :: t =>
      if N.eqb c1 GT && N.eqb c2 LT then
        let g3 := greedy (N.eqb SLASH) t in
        Some ([c1] ++ [LF] ++ [c2] ++ g3, 1 + length g3)
      else None
  | _ => None
  end.

(** The lazy group followed by [>]: the shortest run of code units other than line terminators
    that is followed by [>]. *)
Fixpoint lazy_until_gt (s : js_string) : option js_string :=
  match s with
  | [] => None
  | c :: t =>
      if N.eqb c GT then Some []
      else if is_line_terminator c then None
      else match lazy_until_gt t with
           | Some g => Some (c :: g)
           | None => None
           end
  end.

(** A run of one or more [\s], replaced by one space. *)
Definition space_run : matcher := fun s =>
  match s with
  | c :: t => if is_space c then Some ([SP], length (greedy is_space t)) else None
  | [] => None
  end.

(** The second expression: a [<], the lazy group and a [>]; the match is
    replaced by itself with its runs of spaces collapsed. *)
Definition tag : matcher := fun s =>
  match s with
  | c :: t =>
      if N.eqb c LT then
        match lazy_until_gt t with
        | Some g1 => Some (replace_all space_run (c :: g1 ++ [GT]), length g1 + 1)
        | None => None
        end
      else None
  | [] => None
  end.

(** [s.split('\n')]. *)
Fixpoint split_lines (s : js_string) : list js_string :=
  match s with
  | [] => [[]]
  | c :: t =>
      if N.eqb c LF then [] :: split_lines t
      else match split_lines t with
           | l :: ls => (c :: l) :: ls
           | [] => [[c]]
           end
  end.

Fixpoint trimStart (s : js_string) : js_string :=
  match s with
  | c :: t => if is_space c then trimStart t else s
  | [] => []
  end.

Definition trimEnd (s : js_string) : js_string := rev (trimStart (rev s)).

(** [line.trim()]. *)
Definition trim (s : js_string) : js_string := trimEnd (trimStart s).

(** [lines.join('\n')]. *)
Fixpoint join_lines (ls : list js_string) : js_string :=
  match ls with
  | [] => []
  | [l] => l
  | l :: ls' => l ++ LF :: join_lines ls'
  end.

(** The chain applied by [formatXML] to the serialised document. *)
Definition normalize (serialized : js_string) : js_string :=
  join_lines (map trim (split_lines (replace_all tag (replace_all tag_gap serialized)))).

(** The [try] block of [formatXML] up to the computation of [formatted]. *)
Definition formatXML_try (P : Platform) (content : js_value) : completion js_string :=
  xmlDoc <- parseFromString P (ToString content) ;;
  if 0 <? length (docGetElementsByTagName P xmlDoc (js "parsererror"))
  then Throw msg_fix_syntax
  else
    serialized <- serializeToString P xmlDoc ;;
    Normal (normalize serialized).

Definition formatXML (P : Platform) (st : Editor) : Editor :=
  match formatXML_try P (xmlContent st) with
  | Normal formatted =>
      setValidationMessages [ok msg_formatted]
        (addToHistory formatted (setXmlContent (Some formatted) st))
  | Throw m => setValidationMessages [err m] st
  end.

(* ===================================================================== *)
(** * Notions used in the statements *)
(* ===================================================================== *)

(** [first_named e name] is [e.getElementsByTagName(name)[0]], and
    [lacks e name] is the test [!e.getElementsByTagName(name)[0]]. *)
Definition first_named (e : Element) (name : js_string) : option Element :=
  item0 (getElementsByTagName e name).

Definition lacks (e : Element) (name : js_string) : bool :=
  is_none (first_named e name).

(** The required-element rules in the words of the specification: the
    texts of the errors owed by a document whose root is [tei], in the order
    of the rules. *)
Definition missing_required (tei : Element) : list js_string :=
  (if lacks tei (js "teiHeader") then [msg_teiHeader] else []) ++
  (if lacks tei (js "text") then [msg_text] else []) ++
  match first_named tei (js "teiHeader") with
  | Some teiHeader =>
      match first_named teiHeader (js "fileDesc") with
      | None => [msg_fileDesc]
      | Some fileDesc =>
          (if lacks fileDesc (js "titleStmt") then [msg_in_fileDesc (js "titleStmt")] else []) ++
          (if lacks fileDesc (js "publicationStmt")
           then [msg_in_fileDesc (js "publicationStmt")] else []) ++
          (if lacks fileDesc (js "sourceDesc") then [msg_in_fileDesc (js "sourceDesc")] else []) ++
          match first_named fileDesc (js "titleStmt") with
          | Some titleStmt => if lacks titleStmt (js "title") then [msg_title] else []
          | None => []
          end
      end
  | None => []
  end ++
  match first_named tei (js "text") with
  | Some text => if lacks text (js "body") then [msg_body] else []
  | None => []
  end.

(** The reduced rule of [part_000]: one combined error when either of the two
    top-level elements is missing. *)
Definition missing_reduced (tei : Element) : list js_string :=
  if lacks tei (js "teiHeader") || lacks tei (js "text") then [msg_header_or_text] else [].

(** The namespace rule. *)
Definition namespace_ok (tei : Element) : bool :=
  match namespaceURI tei with
  | Some ns => js_eqb ns TEI_NS
  | None => false
  end.

(** [k] lies under [e], at any depth. *)
Inductive descendant_of : Element -> Element -> Prop :=
| descendant_child k e :
    In (inl k) (childNodes e) -> descendant_of k e
| descendant_deeper k c e :
    In (inl c) (childNodes e) -> descendant_of k c -> descendant_of k e.

(** Every status message is one of the kinds; [all_errors] lists only
    errors. *)
Definition all_errors (ms : list ValidationMessage) : Prop :=
  Forall (fun m => type m = error) ms.

(** The outcome of a validation is pure: a success message is present
    exactly when no error is; then it is the only message; and when an error
    is present every message is an error. *)
Definition pure_outcome (ms : list ValidationMessage) : Prop :=
  ((exists m, In m ms /\ type m = success) <-> (forall m, In m ms -> type m <> error))
  /\ ((exists m, In m ms /\ type m = success) -> exists t, ms = [ok t])
  /\ ((exists m, In m ms /\ type m = error) -> ms <> [] /\ all_errors ms).

(** The texts of the required-element errors. *)
Definition required_msgs : list js_string :=
  [msg_teiHeader; msg_text; msg_fileDesc; msg_in_fileDesc (js "titleStmt");
   msg_in_fileDesc (js "publicationStmt"); msg_in_fileDesc (js "sourceDesc");
   msg_title; msg_body].

(** The messages of the walk, whatever the document. *)
Definition walk_msgs : list ValidationMessage :=
  ok msg_conforms :: err msg_root :: err msg_namespace :: err msg_header_or_text
    :: map err required_msgs.


(** Some element of that name lies under [e], at any depth. *)
Definition has_descendant (e : Element) (name : js_string) : Prop :=
  exists k, descendant_of k e /\ tagName k = name.

(** [k] is the first element of that name under [e] in document order. *)
Definition first_in_order (e : Element) (name : js_string) (k : Element) : Prop :=
  exists before after,
    descendants e = before ++ k :: after
    /\ tagName k = name
    /\ forall j, In j before -> tagName j <> name.

(** ** Sample documents *)

(** An element in the TEI namespace, without prefix or attributes. *)
Definition el (name : string) (children : list (Element + CharacterData)) : Element :=
  mkElement None (js name) (Some TEI_NS) [] children.

(** A root element that declares the TEI namespace as its default. *)
Definition root_el (name : string) (children : list (Element + CharacterData)) : Element :=
  mkElement None (js name) (Some TEI_NS) [(js "xmlns", TEI_NS)] children.

Definition txt (s : string) : Element + CharacterData := inr (Text (js s)).

(** The conforming document of the specification's first scenario. *)
Definition conforming_children : list (Element + CharacterData) :=
  [inl (el "teiHeader"
          [inl (el "fileDesc"
                  [inl (el "titleStmt" [inl (el "title" [txt "T"])]);
                   inl (el "publicationStmt" []);
                   inl (el "sourceDesc" [])])]);
   inl (el "text" [inl (el "body" [])])].

Definition conforming_root : Element := root_el "TEI" conforming_children.

(** The same document without its [title]. *)
Definition untitled_root : Element :=
  root_el "TEI"
    [inl (el "teiHeader"
            [inl (el "fileDesc"
                    [inl (el "titleStmt" []);
                     inl (el "publicationStmt" []);
                     inl (el "sourceDesc" [])])]);
     inl (el "text" [inl (el "body" [])])].

(** The same document with the root renamed [NOTTEI]. *)
Definition nottei_root : Element := root_el "NOTTEI" conforming_children.

(** A root with a prefix: [<tei:TEI xmlns:tei="http://www.tei-c.org/ns/1.0"/>]. *)
Definition prefixed_root : Element :=
  mkElement (Some (js "tei")) (js "TEI") (Some TEI_NS) [(js "xmlns:tei", TEI_NS)] [].

(** [<TEI xmlns="http://www.tei-c.org/ns/1.0"/>]. *)
Definition bare_root : Element := root_el "TEI" [].

(** [<TEI/>], in no namespace. *)
Definition bare_root_no_ns : Element := mkElement None (js "TEI") None [] [].

(** The header nested inside [text]:
    [<TEI ...><text><teiHeader>...</teiHeader><body/></text></TEI>]. *)
Definition header_in_text_root : Element :=
  root_el "TEI"
    [inl (el "text"
            [inl (el "teiHeader"
                    [inl (el "fileDesc"
                            [inl (el "titleStmt" [inl (el "title" [txt "T"])]);
                             inl (el "publicationStmt" []);
                             inl (el "sourceDesc" [])])]);
             inl (el "body" [])])].

(** Two [titleStmt], the first without [title], the second with one. *)
Definition two_titleStmt_root : Element :=
  root_el "TEI"
    [inl (el "teiHeader"
            [inl (el "fileDesc"
                    [inl (el "titleStmt" []);
                     inl (el "titleStmt" [inl (el "title" [txt "T"])]);
                     inl (el "publicationStmt" []);
                     inl (el "sourceDesc" [])])]);
     inl (el "text" [inl (el "body" [])])].

(** What the parser of Firefox returns for a text that is not well formed: a
    document whose only element is [parsererror]. *)
Definition parsererror_root (diagnostic : js_string) : Element :=
  mkElement None (js "parsererror")
    (Some (js "http://www.mozilla.org/newlayout/xml/parsererror.xml"))
    [(js "xmlns", js "http://www.mozilla.org/newlayout/xml/parsererror.xml")]
    [inr (Text diagnostic)].

(** What the parser of Chrome returns for the conforming document followed
    by a stray end tag: the tree built so far, with a [parsererror] element
    inserted as first child of the root. *)
Definition parsererror_inside_root (diagnostic : js_string) : Element :=
  root_el "TEI"
    (inl (mkElement None (js "parsererror") (Some (js "http://www.w3.org/1999/xhtml"))
            [(js "xmlns", js "http://www.w3.org/1999/xhtml")]
            [inr (Text diagnostic)])
     :: conforming_children).

(** A text that is not well formed: the root is not closed. *)
Definition broken_text : js_string := js "<TEI>".

(** ** Sample states *)

(** The cursor points into the log. *)
Definition cursor_valid (st : Editor) : Prop :=
  currentIndexRef st < length (historyRef st).

(** The buffer shows the snapshot under the cursor. *)
Definition buffer_in_sync (st : Editor) : Prop :=
  xmlContent st = nth_error (historyRef st) (currentIndexRef st).

(** A log of three snapshots with the cursor on the second. *)
Definition sample_editor : Editor :=
  {| xmlContent := Some (js "<b/>");
     validationMessages := [];
     historyRef := [js "<a/>"; js "<b/>"; js "<c/>"];
     currentIndexRef := 1 |}.

(** The component after the text that is not well formed was typed over
    [<a/>]. *)
Definition broken_editor : Editor :=
  handleContentChange broken_text (initial (js "<a/>")).

(** ** Notions used to reason about the formatter *)

Definition starts_with (x : char) (s : js_string) : bool :=
  match s with
  | c :: _ => N.eqb c x
  | [] => false
  end.

(** Some [>] is immediately followed by [<]. *)
Fixpoint has_gap (s : js_string) : bool :=
  match s with
  | c :: t => (N.eqb c GT && starts_with LT t) || has_gap t
  | [] => false
  end.

(** The group of the second expression cannot hold a [>] or a line
    terminator. *)
Definition plain (c : char) : bool :=
  negb (N.eqb c GT) && negb (is_line_terminator c).

(** A text is its own [trimStart] when it does not begin with a space. *)
Definition no_leading_space (s : js_string) : bool :=
  match s with
  | c :: _ => negb (is_space c)
  | [] => true
  end.

(** ** Sample platforms *)

Definition CR : char := 13%N.
Definition AMP : char := 38%N.    (* & *)
Definition HASH : char := 35%N.   (* # *)
Definition SEMI : char := 59%N.   (* ; *)
Definition QUOT : char := 34%N.   (* the double quote *)

(** XML 1.0, 2.11: before parsing, every CR LF pair and every CR not
    followed by LF becomes one LF. *)
Fixpoint normalize_eol (s : js_string) : js_string :=
  match s with
  | [] => []
  | c :: t =>
      if N.eqb c CR then
        match t with
        | d :: t' => if N.eqb d LF then LF :: normalize_eol t' else LF :: normalize_eol t
        | [] => [LF]
        end
      else c :: normalize_eol t
  end.

Definition is_letter (c : char) : bool :=
  ((N.leb 65 c && N.leb c 90) || (N.leb 97 c && N.leb c 122))%N.

Definition is_digit (c : char) : bool := (N.leb 48 c && N.leb c 57)%N.

(** XML 1.0, production [Char], within the basic plane. *)
Definition is_xml_char (c : char) : bool :=
  (N.eqb c 9 || N.eqb c 10 || N.eqb c 13 || (N.leb 32 c && N.leb c 55295)
   || (N.leb 57344 c && N.leb c 65533))%N.

(** Character data up to the next [<]: literal code units, and decimal
    character references (XML 1.0, 4.1), which stand for the code unit they
    name, CR included. [ref] is the value read so far inside a reference. *)
Fixpoint chardata (ref : option (option N)) (s : js_string)
  : option (js_string * js_string) :=
  match s with
  | [] => None
  | c :: t =>
      match ref with
      | None =>
          if N.eqb c LT then Some ([], s)
          else if N.eqb c AMP then
            match t with
            | d :: t' => if N.eqb d HASH then chardata (Some None) t' else None
            | [] => None
            end
          else
            match chardata None t with
            | Some (data, rest) => Some (c :: data, rest)
            | None => None
            end
      | Some acc =>
          if is_digit c then
            chardata (Some (Some (match acc with
                                  | Some v => v * 10 + (c - 48)
                                  | None => c - 48
                                  end)%N)) t
          else if N.eqb c SEMI then
            match acc with
            | Some v =>
                if is_xml_char v then
                  match chardata None t with
                  | Some (data, rest) => Some (v :: data, rest)
                  | None => None
                  end
                else None
            | None => None
            end
          else None
      end
  end.

(** A parser for the texts made of one element, of a name in letters, that
    holds character data only; every other text is reported as not well
    formed, the way Firefox does. *)
Definition parse_fragment (s : js_string) : option Element :=
  match normalize_eol s with
  | c :: r =>
      if N.eqb c LT then
        let name := greedy is_letter r in
        match name, skipn (length name) r with
        | _ :: _, d :: r1 =>
            if N.eqb d GT then
              match chardata None r1 with
              | Some (data, rest) =>
                  if js_eqb rest (LT :: SLASH :: name ++ [GT])
                  then Some (mkElement None name None []
                               match data with [] => [] | _ => [inr (Text data)] end)
                  else None
              | None => None
              end
            else None
        | _, _ => None
        end
      else None
  | [] => None
  end.

(** The serialisation of character data in text: [&], [<] and [>] are
    escaped and nothing else. *)
Definition escape_text (data : js_string) : js_string :=
  flat_map (fun c => if N.eqb c AMP then js "&amp;"
                     else if N.eqb c LT then js "&lt;"
                     else if N.eqb c GT then js "&gt;"
                     else [c]) data.

(** The serialisation of an attribute value: the double quote is escaped
    too, and so are TAB, LF and CR. *)
Definition escape_attribute (value : js_string) : js_string :=
  flat_map (fun c => if N.eqb c AMP then js "&amp;"
                     else if N.eqb c LT then js "&lt;"
                     else if N.eqb c GT then js "&gt;"
                     else if N.eqb c QUOT then js "&quot;"
                     else if N.eqb c 9 then js "&#9;"
                     else if N.eqb c LF then js "&#10;"
                     else if N.eqb c CR then js "&#13;"
                     else [c]) value.

Definition serialize_chardata (d : CharacterData) : js_string :=
  match d with
  | Text data => escape_text data
  | CDATASection data => js "<![CDATA[" ++ data ++ js "]]>"
  | Comment data => js "<!--" ++ data ++ js "-->"
  | ProcessingInstruction target data => js "<?" ++ target ++ js " " ++ data ++ js "?>"
  end.

(** The serialisation of an element whose namespace declarations are among
    its attributes. *)
Fixpoint serialize_element (e : Element) : js_string :=
  let open :=
    LT :: tagName e
       ++ flat_map (fun a => js " " ++ fst a ++ js "=" ++ [QUOT] ++ escape_attribute (snd a) ++ [QUOT])
                   (attributes e) in
  match childNodes e with
  | [] => open ++ js "/>"
  | cs =>
      open ++ [GT]
        ++ flat_map (fun c => match c with
                              | inl k => serialize_element k
                              | inr d => serialize_chardata d
                              end) cs
        ++ js "</" ++ tagName e ++ [GT]
  end.

(** The platform on that fragment of XML. *)
Definition fragment_platform : Platform :=
  {| Document := Element;
     parseFromString := fun s =>
       match parse_fragment s with
       | Some root => Normal root
       | None => Normal (parsererror_root (js "syntax error"))
       end;
     documentElement := fun d => Some d;
     serializeToString := fun d => Normal (serialize_element d) |}.


(** The documents of the samples. *)
Definition sample_roots : list Element :=
  [conforming_root; untitled_root; nottei_root; prefixed_root; bare_root;
   bare_root_no_ns; header_in_text_root; two_titleStmt_root].

(** A platform for the samples: its parser knows the serialised texts of the
    sample documents, for which it returns the document, and reports any other
    text as not well formed. *)
Definition sample_platform : Platform :=
  {| Document := Element;
     parseFromString := fun s =>
       match find (fun root => js_eqb (serialize_element root) s) sample_roots with
       | Some root => Normal root
       | None => Normal (parsererror_root (js "syntax error"))
       end;
     documentElement := fun d => Some d;
     serializeToString := fun d => Normal (serialize_element d) |}.

(** The text of a sample document, as a buffer content. *)
Definition text_of (root : Element) : js_value := Some (serialize_element root).

(* ===================================================================== *)
(** * The component as a whole *)
(* ===================================================================== *)

(** What the user can do: type in the text area, or click one of the
    buttons. [ClickValidateTEIReduced] is the TEI button of the components of
    [part_000]. *)
Inductive Action :=
| Edit (newContent : js_string)
| ClickUndo
| ClickRedo
| ClickFormat
| ClickValidateXML
| ClickValidateTEI
| ClickValidateTEIReduced.

(** The handler the component attaches to each. *)
Definition handle (P : Platform) (a : Action) (st : Editor) : Editor :=
  match a with
  | Edit newContent => handleContentChange newContent st
  | ClickUndo => undo st
  | ClickRedo => redo st
  | ClickFormat => formatXML P st
  | ClickValidateXML => fst (validateXMLSyntax P st)
  | ClickValidateTEI => validateTEI P st
  | ClickValidateTEIReduced => Reduced.validateTEI P st
  end.

(** The actions that record a snapshot when they succeed. *)
Definition records (a : Action) : bool :=
  match a with
  | Edit _ | ClickFormat => true
  | _ => false
  end.

(** A session: the handlers run one after the other. *)
Definition run (P : Platform) (actions : list Action) (st : Editor) : Editor :=
  fold_left (fun s a => handle P a s) actions st.

(** Successive edits of the text area. *)
Definition edits (l : list js_string) (st : Editor) : Editor :=
  fold_left (fun s newContent => handleContentChange newContent s) l st.

(** The element reduced to the names of its elements and their nesting: at
    every depth the namespace, the attributes and every node that is not an
    element are removed. *)
Fixpoint names_only (e : Element) : Element :=
  mkElement (prefix e) (localName e) None []
    (flat_map (fun c => match c with
                        | inl k => [inl (names_only k)]
                        | inr _ => []
                        end) (childNodes e)).

(** A root element reduced to its own namespace and to the names of the
    elements below it. *)
Definition skeleton (e : Element) : Element :=
  mkElement (prefix e) (localName e) (namespaceURI e) [] (childNodes (names_only e)).

(** The code units of a text that are not spaces, in order. *)
Definition ink (s : js_string) : js_string :=
  filter (fun c => negb (is_space c)) s.

(** The names of the elements [validateTEI] of [tei-editor.tsx] looks
    for. *)
Definition required_names : list js_string :=
  [js "teiHeader"; js "text"; js "fileDesc"; js "titleStmt"; js "publicationStmt";
   js "sourceDesc"; js "title"; js "body"].

(** The texts of the errors about what [fileDesc] must hold, directly or
    through [titleStmt]. *)
Definition below_fileDesc_msgs : list js_string :=
  [msg_in_fileDesc (js "titleStmt"); msg_in_fileDesc (js "publicationStmt");
   msg_in_fileDesc (js "sourceDesc"); msg_title].

(** [l1] is made of items of [l2], in the order they have in [l2]. *)
Inductive subseq {A : Type} : list A -> list A -> Prop :=
| subseq_nil l : subseq [] l
| subseq_take x l1 l2 : subseq l1 l2 -> subseq (x :: l1) (x :: l2)
| subseq_skip x l1 l2 : subseq l1 l2 -> subseq l1 (x :: l2).

(** The errors of the walk of [tei-editor.tsx] past the root check, in the
    order of the checks. *)
Definition ordered_errors : list ValidationMessage :=
  err msg_namespace :: map err required_msgs.

(** A document with a second attribute on the root, text between the
    elements and a comment. *)
Definition decorated_root : Element :=
  mkElement None (js "TEI") (Some TEI_NS) [(js "xmlns", TEI_NS); (js "xml:lang", js "it")]
    [inr (Comment (js " draft "));
     inl (el "teiHeader" [txt "x"; inl (el "fileDesc" [])]);
     inr (Text (js "y"));
     inl (el "text" [inl (el "body" [txt "z"])])].

(** The same elements and nothing else, with a header that undeclares the
    default namespace: [teiHeader] and [fileDesc] are in no namespace. *)
Definition undeclared_root : Element :=
  root_el "TEI"
    [inl (mkElement None (js "teiHeader") None [(js "xmlns", [])]
            [inl (mkElement None (js "fileDesc") None [] [])]);
     inl (el "text" [inl (el "body" [])])].

(** A platform for these two documents, like [sample_platform]: its parser
    returns the document of each serialised text and reports any other text
    as not well formed. *)
Definition decorated_platform : Platform :=
  {| Document := Element;
     parseFromString := fun s =>
       match find (fun root => js_eqb (serialize_element root) s)
                  [decorated_root; undeclared_root] with
       | Some root => Normal root
       | None => Normal (parsererror_root (js "syntax error"))
       end;
     documentElement := fun d => Some d;
     serializeToString := fun d => Normal (serialize_element d) |}.

(** ** Tactics *)

(** Splits the rules of [missing_required] into their cases. *)
Ltac rule_cases tei :=
  unfold missing_required, lacks;
  destruct (first_named tei (js "teiHeader")) as [?h|] eqn:?Hh;
  destruct (first_named tei (js "text")) as [?t|] eqn:?Ht; simpl;
  try match goal with h : Element |- _ =>
    lazymatch goal with
    | |- context [first_named h (js "fileDesc")] =>
        destruct (first_named h (js "fileDesc")) as [?fd|] eqn:?Hfd; simpl
    end end;
  try match goal with fd : Element |- _ =>
    lazymatch goal with
    | |- context [first_named fd (js "titleStmt")] =>
        destruct (first_named fd (js "titleStmt")) as [?ts|] eqn:?Hts;
        destruct (first_named fd (js "publicationStmt")) eqn:?Hps;
        destruct (first_named fd (js "sourceDesc")) eqn:?Hsd; simpl
    end end;
  try match goal with ts : Element |- _ =>
    lazymatch goal with
    | |- context [first_named ts (js "title")] =>
        destruct (first_named ts (js "title")) eqn:?Hti; simpl
    end end;
  try match goal with t : Element |- _ =>
    lazymatch goal with
    | |- context [first_named t (js "body")] =>
        destruct (first_named t (js "body")) eqn:?Hbo; simpl
    end end.

(** Closes the cases where two different message texts are equated. *)
Ltac distinct_msgs :=
  repeat match goal with
         | H : _ \/ _ |- _ => destruct H as [H|H]
         | H : False |- _ => destruct H
         | H : @eq (list N) _ _ |- _ => vm_compute in H; discriminate H
         | H : @eq (option Element) _ _ |- _ => discriminate H
         | H : @eq bool _ _ |- _ => discriminate H
         end.

(* ===================================================================== *)
(** * Properties of the validators *)
(* ===================================================================== *)

(** ** Message lists *)

Lemma js_eqb_spec a b : reflect (a = b) (js_eqb a b).
Proof.
  revert b. induction a as [|x a IH]; intros [|y b]; simpl;
    try (constructor; congruence).
  destruct (N.eqb_spec x y) as [->|Hne]; simpl.
  - destruct (IH b) as [->|Hne]; constructor; congruence.
  - constructor; congruence.
Qed.

Lemma js_eqb_refl a : js_eqb a a = true.
Proof. destruct (js_eqb_spec a a); congruence. Qed.

Lemma check_namespace_app tei ms :
  check_namespace tei ms = ms ++ (if namespace_ok tei then [] else [err msg_namespace]).
Proof.
  unfold check_namespace, namespace_ok, push.
  destruct (namespaceURI tei) as [ns|]; [destruct (js_eqb ns TEI_NS)|];
    now rewrite ?app_nil_r.
Qed.

(** The checks of [tei-editor.tsx] append, to the messages pushed so far,
    exactly the errors the rules call for. *)
Lemma check_required_app tei ms :
  check_required tei ms = ms ++ map err (missing_required tei).
Proof.
  unfold check_required, missing_required, lacks, first_named, push.
  destruct (item0 (getElementsByTagName tei (js "teiHeader"))) as [h|];
    destruct (item0 (getElementsByTagName tei (js "text"))) as [t|]; simpl.
  all: try destruct (item0 (getElementsByTagName h (js "fileDesc"))) as [fd|]; simpl.
  all: try destruct (item0 (getElementsByTagName fd (js "titleStmt"))) as [ts|]; simpl.
  all: try destruct (item0 (getElementsByTagName fd (js "publicationStmt"))); simpl.
  all: try destruct (item0 (getElementsByTagName fd (js "sourceDesc"))); simpl.
  all: try destruct (item0 (getElementsByTagName ts (js "title"))); simpl.
  all: try destruct (item0 (getElementsByTagName t (js "body"))); simpl.
  all: rewrite <- ?app_assoc; simpl; rewrite ?app_nil_r; reflexivity.
Qed.

Lemma reduced_check_required_app tei ms :
  Reduced.check_required tei ms = ms ++ map err (missing_reduced tei).
Proof.
  unfold Reduced.check_required, missing_reduced, lacks, first_named, push.
  destruct (is_none _ || is_none _); simpl; now rewrite ?app_nil_r.
Qed.

Lemma checkStructure_root_ok tei :
  tagName tei = js "TEI" ->
  checkStructure (Some tei) =
  conclude ((if namespace_ok tei then [] else [err msg_namespace])
            ++ map err (missing_required tei)).
Proof.
  intros H. unfold checkStructure. rewrite H, js_eqb_refl. simpl negb. cbv iota.
  now rewrite check_required_app, check_namespace_app.
Qed.

Lemma reduced_checkStructure_root_ok tei :
  tagName tei = js "TEI" ->
  Reduced.checkStructure (Some tei) =
  conclude ((if namespace_ok tei then [] else [err msg_namespace])
            ++ map err (missing_reduced tei)).
Proof.
  intros H. unfold Reduced.checkStructure. rewrite H, js_eqb_refl. simpl negb. cbv iota.
  now rewrite reduced_check_required_app, check_namespace_app.
Qed.

Lemma checkStructure_bad_root root :
  (root = None \/ exists tei, root = Some tei /\ tagName tei <> js "TEI") ->
  checkStructure root = [err msg_root] /\ Reduced.checkStructure root = [err msg_root].
Proof.
  intros [->|(tei & -> & Hne)]; [now split|].
  unfold checkStructure, Reduced.checkStructure.
  destruct (js_eqb_spec (tagName tei) (js "TEI")); [contradiction|now split].
Qed.

Lemma all_errors_map_err l : all_errors (map err l).
Proof. induction l; constructor; auto. Qed.

Lemma conclude_cases ms :
  all_errors ms ->
  conclude ms = [ok msg_conforms] \/ (conclude ms <> [] /\ all_errors (conclude ms)).
Proof.
  intros H. destruct ms; [now left|right]. split; [discriminate|exact H].
Qed.

Lemma all_errors_rules tei (rules : list js_string) :
  all_errors ((if namespace_ok tei then [] else [err msg_namespace]) ++ map err rules).
Proof.
  apply Forall_app. split; [|apply all_errors_map_err].
  destruct (namespace_ok tei); repeat constructor.
Qed.

Lemma checkStructure_cases root :
  checkStructure root = [ok msg_conforms]
  \/ (checkStructure root <> [] /\ all_errors (checkStructure root)).
Proof.
  destruct root as [tei|].
  - destruct (js_eqb_spec (tagName tei) (js "TEI")) as [H|H].
    + rewrite (checkStructure_root_ok _ H). apply conclude_cases, all_errors_rules.
    + destruct (checkStructure_bad_root (Some tei)) as [-> _]; [right; eauto|].
      right. split; [discriminate|repeat constructor].
  - right. split; [discriminate|repeat constructor].
Qed.

Lemma reduced_checkStructure_cases root :
  Reduced.checkStructure root = [ok msg_conforms]
  \/ (Reduced.checkStructure root <> [] /\ all_errors (Reduced.checkStructure root)).
Proof.
  destruct root as [tei|].
  - destruct (js_eqb_spec (tagName tei) (js "TEI")) as [H|H].
    + rewrite (reduced_checkStructure_root_ok _ H). apply conclude_cases, all_errors_rules.
    + destruct (checkStructure_bad_root (Some tei)) as [_ ->]; [right; eauto|].
      right. split; [discriminate|repeat constructor].
  - right. split; [discriminate|repeat constructor].
Qed.

Lemma pure_outcome_of_cases ms :
  (exists t, ms = [ok t]) \/ (ms <> [] /\ all_errors ms) -> pure_outcome ms.
Proof.
  intros [[t ->]|[Hne Hall]]; unfold pure_outcome.
  - split; [|split].
    + split; [|eexists; split; [left; reflexivity|reflexivity]].
      intros _ m [<-|[]]. discriminate.
    + eauto.
    + intros (m & [<-|[]] & Hm). discriminate.
  - assert (Hno : ~ exists m, In m ms /\ type m = success).
    { intros (m & Hin & Hm). unfold all_errors in Hall.
      rewrite Forall_forall in Hall. specialize (Hall m Hin). congruence. }
    split; [|split].
    + split; [intros H; now destruct Hno|].
      intros H. destruct ms as [|m ms]; [congruence|].
      exfalso. apply (H m); [now left|]. now inversion Hall.
    + intros H. now destruct Hno.
    + auto.
Qed.

Lemma validateTEI_messages_cases P content :
  let ms := validateTEI_messages P content in
  (exists t, ms = [ok t]) \/ (ms <> [] /\ all_errors ms).
Proof.
  unfold validateTEI_messages, validateTEI_try, bind.
  destruct (parseFromString P (ToString content)) as [d|m]; simpl.
  - destruct (checkStructure_cases (documentElement P d)) as [->|H]; eauto.
  - right. split; [discriminate|repeat constructor].
Qed.

Lemma reduced_validateTEI_messages_cases P content :
  let ms := Reduced.validateTEI_messages P content in
  (exists t, ms = [ok t]) \/ (ms <> [] /\ all_errors ms).
Proof.
  unfold Reduced.validateTEI_messages, Reduced.validateTEI_try, bind.
  destruct (parseFromString P (ToString content)) as [d|m]; simpl.
  - destruct (reduced_checkStructure_cases (documentElement P d)) as [->|H]; eauto.
  - right. split; [discriminate|repeat constructor].
Qed.

(** C4. Success purity: for every platform and every buffer content, the
    messages of [validateTEI] (of [tei-editor.tsx] and of the reduced
    variants) hold a success message exactly when they hold no error; a
    success is then the only message, and a failing run is a non-empty list
    of errors only. *)
Theorem validateTEI_success_purity (P : Platform) (content : js_value) :
  pure_outcome (validateTEI_messages P content)
  /\ pure_outcome (Reduced.validateTEI_messages P content).
Proof.
  split; apply pure_outcome_of_cases.
  - apply validateTEI_messages_cases.
  - apply reduced_validateTEI_messages_cases.
Qed.


Lemma In_if (c : bool) (m x : js_string) :
  In x (if c then [m] else []) <-> c = true /\ m = x.
Proof. destruct c; simpl; intuition congruence. Qed.

Lemma missing_required_incl tei x :
  In x (missing_required tei) -> In x required_msgs.
Proof.
  rule_cases tei; unfold required_msgs; simpl; intuition.
Qed.

Lemma missing_required_NoDup tei : NoDup (missing_required tei).
Proof.
  assert (H : NoDup required_msgs).
  { unfold required_msgs.
    repeat (constructor; [vm_compute; intuition discriminate|]). constructor. }
  unfold required_msgs in H.
  rule_cases tei;
    repeat match goal with
           | |- NoDup [] => constructor
           | |- NoDup (_ :: _) => constructor; [vm_compute; intuition discriminate|]
           end.
Qed.

Lemma in_conclude_err x ms :
  In (err x) (conclude ms) <-> In (err x) ms.
Proof.
  destruct ms; simpl; [|tauto]. split; [|tauto]. intros [H|[]]. discriminate.
Qed.

Lemma in_map_err x l : In (err x) (map err l) <-> In x l.
Proof.
  rewrite in_map_iff. split.
  - intros (y & Hy & Hin). now inversion Hy; subst.
  - intros H. eauto.
Qed.

(** An error other than the namespace error is displayed for a document
    rooted at [TEI] exactly when the rules call for it. *)
Lemma in_checkStructure_required tei x :
  tagName tei = js "TEI" -> x <> msg_namespace ->
  (In (err x) (checkStructure (Some tei)) <-> In x (missing_required tei)).
Proof.
  intros H Hx. rewrite (checkStructure_root_ok _ H), in_conclude_err, in_app_iff, in_map_err.
  destruct (namespace_ok tei); simpl; [tauto|].
  split; [|tauto]. intros [[Hn|[]]|Hn]; [|exact Hn]. inversion Hn. congruence.
Qed.


Lemma conclude_incl ms m :
  In m (conclude ms) -> m = ok msg_conforms \/ In m ms.
Proof.
  destruct ms; simpl; [|tauto]. intros [H|[]]. now left.
Qed.

Lemma rules_incl tei l m :
  (forall x, In x l -> In (err x) walk_msgs) ->
  In m (conclude ((if namespace_ok tei then [] else [err msg_namespace]) ++ map err l)) ->
  In m walk_msgs.
Proof.
  intros Hl Hm. apply conclude_incl in Hm. destruct Hm as [->|Hm]; [now left|].
  apply in_app_iff in Hm. destruct Hm as [Hm|Hm].
  - destruct (namespace_ok tei); [destruct Hm|]. destruct Hm as [<-|[]].
    right; right; now left.
  - apply in_map_iff in Hm. destruct Hm as (x & <- & Hx). auto.
Qed.

Lemma checkStructure_incl root m :
  In m (checkStructure root) -> In m walk_msgs.
Proof.
  destruct root as [tei|].
  - destruct (js_eqb_spec (tagName tei) (js "TEI")) as [H|H].
    + rewrite (checkStructure_root_ok _ H). apply rules_incl.
      intros x Hx. apply missing_required_incl in Hx.
      do 4 right. now apply in_map.
    + destruct (checkStructure_bad_root (Some tei)) as [-> _]; [right; eauto|].
      intros [<-|[]]. right; now left.
  - intros [<-|[]]. right; now left.
Qed.

Lemma reduced_checkStructure_incl root m :
  In m (Reduced.checkStructure root) -> In m walk_msgs.
Proof.
  destruct root as [tei|].
  - destruct (js_eqb_spec (tagName tei) (js "TEI")) as [H|H].
    + rewrite (reduced_checkStructure_root_ok _ H). apply rules_incl.
      unfold missing_reduced. intros x Hx.
      destruct (_ || _); [|destruct Hx]. destruct Hx as [<-|[]].
      do 3 right. now left.
    + destruct (checkStructure_bad_root (Some tei)) as [_ ->]; [right; eauto|].
      intros [<-|[]]. right; now left.
  - intros [<-|[]]. right; now left.
Qed.

(** None of the messages of the walk is the message of the [catch] clause. *)
Lemma walk_msgs_not_caught m :
  In m walk_msgs -> startsWith msg_tei_prefix (message m) = false.
Proof.
  unfold walk_msgs, required_msgs. simpl.
  intros H. repeat (destruct H as [<-|H]; [vm_compute; reflexivity|]). destruct H.
Qed.

Lemma validateTEI_messages_parsed P content d :
  parseFromString P (ToString content) = Normal d ->
  validateTEI_messages P content = checkStructure (documentElement P d)
  /\ Reduced.validateTEI_messages P content = Reduced.checkStructure (documentElement P d).
Proof.
  intros H. unfold validateTEI_messages, validateTEI_try.
  unfold Reduced.validateTEI_messages, Reduced.validateTEI_try. now rewrite H.
Qed.

(** ** The search for descendants *)

Lemma Element_nested_ind (Q : Element -> Prop) :
  (forall e, (forall k, In (inl k) (childNodes e) -> Q k) -> Q e) ->
  forall e, Q e.
Proof.
  intros H. fix IH 1. intros e. apply H.
  destruct e as [p l ns a cs]. simpl.
  induction cs as [|c cs IHcs]; intros k Hk; [destruct Hk|].
  destruct Hk as [Hk|Hk]; [|now apply IHcs].
  destruct c as [c|c]; [|discriminate]. injection Hk as <-. apply IH.
Qed.

Lemma descendants_eq e :
  descendants e =
  flat_map (fun c => match c with
                     | inl k => inclusive_descendants k
                     | inr _ => []
                     end) (childNodes e).
Proof. now destruct e. Qed.

Lemma inclusive_descendants_eq e : inclusive_descendants e = e :: descendants e.
Proof. now destruct e. Qed.

Lemma descendant_of_In k e : descendant_of k e -> In k (descendants e).
Proof.
  induction 1 as [k e Hin|k c e Hin _ IH]; rewrite descendants_eq, in_flat_map.
  - exists (inl k). split; [exact Hin|]. rewrite inclusive_descendants_eq. now left.
  - exists (inl c). split; [exact Hin|]. rewrite inclusive_descendants_eq. now right.
Qed.

Lemma In_descendant_of k e : In k (descendants e) -> descendant_of k e.
Proof.
  revert k. induction e as [e IH] using Element_nested_ind. intros k.
  rewrite descendants_eq, in_flat_map. intros ([c|c] & Hc & Hk); [|destruct Hk].
  rewrite inclusive_descendants_eq in Hk. destruct Hk as [<-|Hk].
  - now apply descendant_child.
  - apply descendant_deeper with c; auto.
Qed.

Lemma In_descendants k e : In k (descendants e) <-> descendant_of k e.
Proof. split; [apply In_descendant_of|apply descendant_of_In]. Qed.

Lemma hd_error_filter_None {A} (f : A -> bool) l :
  hd_error (filter f l) = None <-> forall x, In x l -> f x = false.
Proof.
  induction l as [|a l IH]; simpl; [tauto|].
  destruct (f a) eqn:Ha; simpl.
  - split; [discriminate|]. intros H. rewrite (H a) in Ha; [discriminate|now left].
  - rewrite IH. split; [intros H x [<-|Hx]; auto|intros H x Hx; apply H; now right].
Qed.

Lemma hd_error_filter_Some {A} (f : A -> bool) l k :
  hd_error (filter f l) = Some k <->
  exists before after,
    l = before ++ k :: after /\ f k = true /\ forall j, In j before -> f j = false.
Proof.
  induction l as [|a l IH]; simpl.
  - split; [discriminate|]. intros (b & c & H & _). now destruct b.
  - destruct (f a) eqn:Ha; simpl.
    + split.
      * intros H. injection H as <-. exists [], l. now repeat split.
      * intros ([|b before] & after & H & Hk & Hb); injection H as -> ->; [reflexivity|].
        rewrite (Hb b) in Ha; [discriminate|now left].
    + rewrite IH. split.
      * intros (before & after & -> & Hk & Hb). exists (a :: before), after.
        repeat split; auto. intros j [<-|Hj]; auto.
      * intros ([|b before] & after & H & Hk & Hb); injection H as -> ->; [congruence|].
        exists before, after. repeat split; auto. intros j Hj. apply Hb. now right.
Qed.

Lemma js_eqb_false a b : js_eqb a b = false <-> a <> b.
Proof. destruct (js_eqb_spec a b); split; congruence. Qed.

Lemma js_eqb_true a b : js_eqb a b = true <-> a = b.
Proof. destruct (js_eqb_spec a b); split; congruence. Qed.

(** A requirement is unmet exactly when no element of the name lies under
    the searched element, whatever the depth. *)
Lemma lacks_true_iff e name : lacks e name = true <-> ~ has_descendant e name.
Proof.
  unfold lacks, first_named, item0, getElementsByTagName, has_descendant.
  destruct (hd_error _) eqn:H; simpl.
  - split; [discriminate|]. intros Hno. exfalso. apply Hno.
    apply hd_error_filter_Some in H. destruct H as (b & a & H & Hk & _).
    exists e0. split; [|now apply js_eqb_true].
    apply In_descendants. rewrite H. apply in_elt.
  - split; [|reflexivity]. intros _ (k & Hk & Hn).
    rewrite hd_error_filter_None in H. apply In_descendants in Hk.
    specialize (H k Hk). apply js_eqb_false in H. contradiction.
Qed.

Lemma lacks_false_iff e name : lacks e name = false <-> has_descendant e name.
Proof.
  destruct (lacks e name) eqn:H.
  - apply lacks_true_iff in H. split; [discriminate|contradiction].
  - split; [|reflexivity]. intros _.
    unfold lacks, first_named, item0, getElementsByTagName in H.
    destruct (hd_error _) eqn:Hh; [|discriminate].
    apply hd_error_filter_Some in Hh. destruct Hh as (b & a & Hh & Hk & _).
    exists e0. split; [|now apply js_eqb_true].
    apply In_descendants. rewrite Hh. apply in_elt.
Qed.

(** The element examined for a requirement is the first of its name in
    document order. *)
Lemma first_named_iff e name k :
  first_named e name = Some k <-> first_in_order e name k.
Proof.
  unfold first_named, item0, getElementsByTagName, first_in_order.
  rewrite hd_error_filter_Some. split.
  - intros (b & a & H & Hk & Hb). exists b, a. repeat split; auto.
    + now apply js_eqb_true.
    + intros j Hj. apply js_eqb_false. auto.
  - intros (b & a & H & Hk & Hb). exists b, a. repeat split; auto.
    + now apply js_eqb_true.
    + intros j Hj. apply js_eqb_false. auto.
Qed.

(** ** The root check *)

(** C2, as amended. For every document the parser returns, [validateTEI]
    (of [tei-editor.tsx] and of the reduced variants) displays the root
    error exactly when the document has no document element or the document
    element's qualified name, prefix included, is not [TEI]; and then the
    root error is the only message. *)
Theorem root_error_iff_tagName (P : Platform) (content : js_value) (d : Document P) :
  parseFromString P (ToString content) = Normal d ->
  let bad_root :=
    documentElement P d = None
    \/ exists tei, documentElement P d = Some tei /\ tagName tei <> js "TEI" in
  (In (err msg_root) (validateTEI_messages P content) <-> bad_root)
  /\ (In (err msg_root) (Reduced.validateTEI_messages P content) <-> bad_root)
  /\ (bad_root ->
      validateTEI_messages P content = [err msg_root]
      /\ Reduced.validateTEI_messages P content = [err msg_root]).
Proof.
  intros Hp bad_root. destruct (validateTEI_messages_parsed P content d Hp) as [-> ->].
  assert (Hbad : bad_root ->
                 checkStructure (documentElement P d) = [err msg_root]
                 /\ Reduced.checkStructure (documentElement P d) = [err msg_root])
    by apply checkStructure_bad_root.
  assert (Hgood : ~ bad_root ->
                  ~ In (err msg_root) (checkStructure (documentElement P d))
                  /\ ~ In (err msg_root) (Reduced.checkStructure (documentElement P d))).
  { intros Hg. destruct (documentElement P d) as [tei|]; [|destruct Hg; now left].
    destruct (js_eqb_spec (tagName tei) (js "TEI")) as [H|H];
      [|destruct Hg; right; eauto].
    rewrite (checkStructure_root_ok _ H), (reduced_checkStructure_root_ok _ H).
    rewrite !in_conclude_err, !in_app_iff, !in_map_err.
    split; intros [Hn|Hn].
    - destruct (namespace_ok tei); [destruct Hn|]. destruct Hn as [Hn|[]]. discriminate.
    - apply missing_required_incl in Hn. revert Hn. vm_compute. intuition discriminate.
    - destruct (namespace_ok tei); [destruct Hn|]. destruct Hn as [Hn|[]]. discriminate.
    - revert Hn. unfold missing_reduced. destruct (_ || _); vm_compute; intuition discriminate. }
  assert (Hdec : bad_root \/ ~ bad_root).
  { subst bad_root. destruct (documentElement P d) as [tei|]; [|now left; left].
    destruct (js_eqb_spec (tagName tei) (js "TEI")) as [H|H].
    - right. intros [H'|(t & H' & Hne)]; [discriminate|]. injection H' as <-. contradiction.
    - left. right. eauto. }
  split; [|split]; [| |exact Hbad].
  - split; [|intros H; destruct (Hbad H) as [-> _]; now left].
    intros H. destruct Hdec as [Hb|Hg]; [exact Hb|]. now destruct (Hgood Hg).
  - split; [|intros H; destruct (Hbad H) as [_ ->]; now left].
    intros H. destruct Hdec as [Hb|Hg]; [exact Hb|]. now destruct (Hgood Hg).
Qed.

Lemma root_error_iff_tagName_witness :
  validateTEI_messages sample_platform (text_of nottei_root) = [err msg_root]
  /\ Reduced.validateTEI_messages sample_platform (text_of nottei_root)
     = [err msg_root].
Proof.
  apply (root_error_iff_tagName sample_platform (text_of nottei_root)
           nottei_root eq_refl).
  right. exists nottei_root. split; [reflexivity|]. vm_compute. discriminate.
Defined.

(** The root of [<tei:TEI xmlns:tei="http://www.tei-c.org/ns/1.0"/>] has the
    local name [TEI], and is refused all the same: the test is not on the
    local name. *)
Lemma root_error_not_by_localName :
  ~ (In (err msg_root)
        (validateTEI_messages sample_platform (text_of prefixed_root))
     <-> localName prefixed_root <> js "TEI").
Proof.
  intros [H _]. apply H; [|reflexivity]. vm_compute. now left.
Qed.

(** ** The required elements *)

(** C3, as amended. For every document the parser returns whose root is
    named [TEI]: [validateTEI] of [tei-editor.tsx] displays, after the
    namespace error if there is one, one error for each required element
    that is missing, each with a text of its own, following the nesting
    rules ([missing_required]); the reduced variants of [part_000] display
    one combined error when [teiHeader] or [text] is missing and check
    nothing below them ([missing_reduced]). *)
Theorem required_element_errors (P : Platform) (content : js_value) (d : Document P)
    (tei : Element) :
  parseFromString P (ToString content) = Normal d ->
  documentElement P d = Some tei ->
  tagName tei = js "TEI" ->
  validateTEI_messages P content =
    conclude ((if namespace_ok tei then [] else [err msg_namespace])
              ++ map err (missing_required tei))
  /\ NoDup (missing_required tei)
  /\ Reduced.validateTEI_messages P content =
       conclude ((if namespace_ok tei then [] else [err msg_namespace])
                 ++ map err (missing_reduced tei)).
Proof.
  intros Hp Hd Ht. destruct (validateTEI_messages_parsed P content d Hp) as [-> ->].
  rewrite Hd. split; [|split].
  - now apply checkStructure_root_ok.
  - apply missing_required_NoDup.
  - now apply reduced_checkStructure_root_ok.
Qed.

Lemma required_element_errors_witness :
  validateTEI_messages sample_platform (text_of bare_root_no_ns) =
    [err msg_namespace; err msg_teiHeader; err msg_text]
  /\ NoDup (missing_required bare_root_no_ns)
  /\ Reduced.validateTEI_messages sample_platform (text_of bare_root_no_ns) =
       [err msg_namespace; err msg_header_or_text].
Proof.
  apply (required_element_errors sample_platform (text_of bare_root_no_ns)
           bare_root_no_ns bare_root_no_ns eq_refl eq_refl eq_refl).
Defined.

(** On [<TEI xmlns="http://www.tei-c.org/ns/1.0"/>], where both [teiHeader]
    and [text] are missing, the reduced variants display one combined error,
    not one error for each. *)
Lemma reduced_combines_header_and_text :
  map err (missing_required bare_root) = [err msg_teiHeader; err msg_text]
  /\ Reduced.validateTEI_messages sample_platform (text_of bare_root)
     = [err msg_header_or_text]
  /\ Reduced.validateTEI_messages sample_platform (text_of bare_root)
     <> conclude ((if namespace_ok bare_root then [] else [err msg_namespace])
                  ++ map err (missing_required bare_root)).
Proof.
  split; [reflexivity|]. split; [reflexivity|]. vm_compute. discriminate.
Qed.

(** The three scenarios of the specification, from the text to the
    messages. *)
Example conforming_text :
  serialize_element conforming_root
  = js "<TEI xmlns=" ++ [QUOT] ++ TEI_NS ++ [QUOT]
       ++ js "><teiHeader><fileDesc><titleStmt><title>T</title></titleStmt>"
       ++ js "<publicationStmt/><sourceDesc/></fileDesc></teiHeader>"
       ++ js "<text><body/></text></TEI>".
Proof. reflexivity. Qed.

Example scenario_conforming :
  validateTEI_messages sample_platform (text_of conforming_root) = [ok msg_conforms].
Proof. reflexivity. Qed.

Example scenario_untitled :
  validateTEI_messages sample_platform (text_of untitled_root) = [err msg_title].
Proof. reflexivity. Qed.

Example scenario_nottei :
  validateTEI_messages sample_platform (text_of nottei_root) = [err msg_root].
Proof. reflexivity. Qed.

Example bare_text :
  serialize_element bare_root = js "<TEI xmlns=" ++ [QUOT] ++ TEI_NS ++ [QUOT] ++ js "/>"
  /\ serialize_element bare_root_no_ns = js "<TEI/>"
  /\ serialize_element prefixed_root
     = js "<tei:TEI xmlns:tei=" ++ [QUOT] ++ TEI_NS ++ [QUOT] ++ js "/>".
Proof. repeat split. Qed.

(** ** The namespace check *)

Lemma namespace_ok_false tei :
  namespaceURI tei <> Some TEI_NS -> namespace_ok tei = false.
Proof.
  unfold namespace_ok. destruct (namespaceURI tei) as [ns|]; [|reflexivity].
  destruct (js_eqb_spec ns TEI_NS); congruence.
Qed.

(** C8. For every document the parser returns whose root is named [TEI]
    and whose namespace URI is missing or is not the TEI namespace,
    [validateTEI] displays the namespace error first and then what the
    required-element checks give when run on the root: these checks are not
    skipped, and their errors follow the namespace error. This holds for
    [tei-editor.tsx] and for the reduced variants. *)
Theorem namespace_error_does_not_stop (P : Platform) (content : js_value)
    (d : Document P) (tei : Element) :
  parseFromString P (ToString content) = Normal d ->
  documentElement P d = Some tei ->
  tagName tei = js "TEI" ->
  namespaceURI tei <> Some TEI_NS ->
  validateTEI_messages P content = err msg_namespace :: check_required tei []
  /\ check_required tei [] = map err (missing_required tei)
  /\ Reduced.validateTEI_messages P content
     = err msg_namespace :: Reduced.check_required tei []
  /\ Reduced.check_required tei [] = map err (missing_reduced tei).
Proof.
  intros Hp Hd Ht Hns. destruct (validateTEI_messages_parsed P content d Hp) as [-> ->].
  rewrite Hd, (checkStructure_root_ok _ Ht), (reduced_checkStructure_root_ok _ Ht).
  rewrite (namespace_ok_false _ Hns), check_required_app, reduced_check_required_app.
  repeat split.
Qed.

Lemma namespace_error_does_not_stop_witness :
  validateTEI_messages sample_platform (text_of bare_root_no_ns)
    = err msg_namespace :: check_required bare_root_no_ns []
  /\ check_required bare_root_no_ns [] = map err (missing_required bare_root_no_ns)
  /\ Reduced.validateTEI_messages sample_platform (text_of bare_root_no_ns)
     = err msg_namespace :: Reduced.check_required bare_root_no_ns []
  /\ Reduced.check_required bare_root_no_ns [] = map err (missing_reduced bare_root_no_ns).
Proof.
  apply (namespace_error_does_not_stop sample_platform (text_of bare_root_no_ns)
           bare_root_no_ns bare_root_no_ns eq_refl eq_refl eq_refl).
  discriminate.
Defined.

(** ** Parse failures *)

(** C1: what the code does. When the parser reports a failure the way
    [validateXMLSyntax] and [formatXML] detect it, by returning a document
    that holds a [parsererror] element, [validateTEI] does not look for that
    element: it walks the returned document like any other, and none of the
    messages it displays is the validation-error message with the parser's
    diagnostic. *)
Theorem validateTEI_walks_parsererror_document (P : Platform) (content : js_value)
    (d : Document P) :
  parseFromString P (ToString content) = Normal d ->
  parse_failed P (ToString content) = true ->
  validateTEI_messages P content = checkStructure (documentElement P d)
  /\ Reduced.validateTEI_messages P content = Reduced.checkStructure (documentElement P d)
  /\ forall m,
       In m (validateTEI_messages P content) \/ In m (Reduced.validateTEI_messages P content) ->
       startsWith msg_tei_prefix (message m) = false.
Proof.
  intros Hp _. destruct (validateTEI_messages_parsed P content d Hp) as [-> ->].
  repeat split. intros m [H|H]; apply walk_msgs_not_caught.
  - now apply checkStructure_incl in H.
  - now apply reduced_checkStructure_incl in H.
Qed.

Lemma validateTEI_walks_parsererror_document_witness :
  validateTEI_messages sample_platform (Some broken_text) = [err msg_root].
Proof.
  apply (validateTEI_walks_parsererror_document sample_platform (Some broken_text)
           (parsererror_root (js "syntax error")) eq_refl eq_refl).
Defined.

(** With the document of Firefox the only message is the root error; with
    the document of Chrome the walk goes through and can even succeed. *)
Example parsererror_root_gives_root_error diagnostic :
  checkStructure (Some (parsererror_root diagnostic)) = [err msg_root]
  /\ Reduced.checkStructure (Some (parsererror_root diagnostic)) = [err msg_root].
Proof. split; reflexivity. Qed.

Example parsererror_inside_root_passes diagnostic :
  checkStructure (Some (parsererror_inside_root diagnostic)) = [ok msg_conforms]
  /\ Reduced.checkStructure (Some (parsererror_inside_root diagnostic)) = [ok msg_conforms].
Proof. split; reflexivity. Qed.

(** Only an exception out of the parser gives the message of the [catch]
    clause. *)
Lemma validateTEI_messages_thrown P content m :
  parseFromString P (ToString content) = Throw m ->
  validateTEI_messages P content = [err (msg_tei_prefix ++ m)]
  /\ Reduced.validateTEI_messages P content = [err (msg_tei_prefix ++ m)].
Proof.
  intros H. unfold validateTEI_messages, validateTEI_try.
  unfold Reduced.validateTEI_messages, Reduced.validateTEI_try. now rewrite H.
Qed.

(** ** Descendant search and first match *)

Lemma teiHeader_rule tei :
  In msg_teiHeader (missing_required tei) <-> lacks tei (js "teiHeader") = true.
Proof.
  split.
  - rule_cases tei; intros H; distinct_msgs; reflexivity.
  - unfold missing_required. intros ->. now left.
Qed.

Lemma text_rule tei :
  In msg_text (missing_required tei) <-> lacks tei (js "text") = true.
Proof.
  split.
  - rule_cases tei; intros H; distinct_msgs; reflexivity.
  - unfold missing_required. intros ->. rewrite !in_app_iff. right. left. now left.
Qed.

Lemma fileDesc_rule tei :
  In msg_fileDesc (missing_required tei) <->
  exists h, first_named tei (js "teiHeader") = Some h /\ lacks h (js "fileDesc") = true.
Proof.
  split.
  - rule_cases tei; intros H; distinct_msgs; eexists; split; eauto;
      unfold lacks; now rewrite Hfd.
  - intros (h & Hh & Hl). unfold missing_required. rewrite Hh.
    unfold lacks in Hl. destruct (first_named h (js "fileDesc")); [discriminate|].
    rewrite !in_app_iff. simpl. tauto.
Qed.

Lemma in_fileDesc_rule tei elem :
  In elem requiredInFileDesc ->
  (In (msg_in_fileDesc elem) (missing_required tei) <->
   exists h fd, first_named tei (js "teiHeader") = Some h
                /\ first_named h (js "fileDesc") = Some fd
                /\ lacks fd elem = true).
Proof.
  intros Helem. split.
  - unfold requiredInFileDesc in Helem. simpl in Helem.
    destruct Helem as [<-|[<-|[<-|[]]]];
      rule_cases tei; intros H; distinct_msgs; do 2 eexists; repeat split; eauto;
        unfold lacks; match goal with Hx : first_named _ _ = None |- _ => now rewrite Hx end.
  - intros (h & fd & Hh & Hfd & Hl). unfold missing_required. rewrite Hh, Hfd.
    unfold requiredInFileDesc in Helem. simpl in Helem.
    destruct Helem as [<-|[<-|[<-|[]]]]; rewrite Hl; rewrite !in_app_iff; simpl; tauto.
Qed.

Lemma title_rule tei :
  In msg_title (missing_required tei) <->
  exists h fd ts, first_named tei (js "teiHeader") = Some h
                  /\ first_named h (js "fileDesc") = Some fd
                  /\ first_named fd (js "titleStmt") = Some ts
                  /\ lacks ts (js "title") = true.
Proof.
  split.
  - rule_cases tei; intros H; distinct_msgs; do 3 eexists; repeat split; eauto;
      unfold lacks; now rewrite Hti.
  - intros (h & fd & ts & Hh & Hfd & Hts & Hl). unfold missing_required.
    rewrite Hh, Hfd, Hts, Hl. rewrite !in_app_iff. simpl. tauto.
Qed.

Lemma body_rule tei :
  In msg_body (missing_required tei) <->
  exists t, first_named tei (js "text") = Some t /\ lacks t (js "body") = true.
Proof.
  split.
  - rule_cases tei; intros H; distinct_msgs; eexists; split; eauto;
      unfold lacks; now rewrite Hbo.
  - intros (t & Ht & Hl). unfold missing_required. rewrite Ht, Hl.
    rewrite !in_app_iff. simpl. tauto.
Qed.

Lemma exists_first_iff e name (Q : Element -> Prop) :
  (exists k, first_named e name = Some k /\ Q k)
  <-> (exists k, first_in_order e name k /\ Q k).
Proof.
  split; intros (k & Hk & HQ); exists k; split; auto; now apply first_named_iff.
Qed.

(** C9. For every document the parser returns whose root is named [TEI],
    [validateTEI] of [tei-editor.tsx] looks for each required element among
    all the descendants of the searched element, at any depth: the error for
    [teiHeader] (or [text]) is displayed exactly when no element of that name
    lies anywhere under the root; and each nested requirement is checked
    under the first element, in document order, that matched the enclosing
    requirement, and under that one only. *)
Theorem required_elements_by_descendant_search (P : Platform) (content : js_value)
    (d : Document P) (tei : Element) :
  parseFromString P (ToString content) = Normal d ->
  documentElement P d = Some tei ->
  tagName tei = js "TEI" ->
  let ms := validateTEI_messages P content in
  (In (err msg_teiHeader) ms <-> ~ has_descendant tei (js "teiHeader"))
  /\ (In (err msg_text) ms <-> ~ has_descendant tei (js "text"))
  /\ (In (err msg_fileDesc) ms <->
      exists h, first_in_order tei (js "teiHeader") h
                /\ ~ has_descendant h (js "fileDesc"))
  /\ (forall elem, In elem requiredInFileDesc ->
        (In (err (msg_in_fileDesc elem)) ms <->
         exists h, first_in_order tei (js "teiHeader") h
           /\ exists fd, first_in_order h (js "fileDesc") fd
                /\ ~ has_descendant fd elem))
  /\ (In (err msg_title) ms <->
      exists h, first_in_order tei (js "teiHeader") h
        /\ exists fd, first_in_order h (js "fileDesc") fd
             /\ exists ts, first_in_order fd (js "titleStmt") ts
                  /\ ~ has_descendant ts (js "title"))
  /\ (In (err msg_body) ms <->
      exists t, first_in_order tei (js "text") t /\ ~ has_descendant t (js "body")).
Proof.
  intros Hp Hd Ht ms. subst ms.
  destruct (validateTEI_messages_parsed P content d Hp) as [-> _]. rewrite Hd.
  split; [|split; [|split; [|split; [|split]]]].
  - rewrite in_checkStructure_required, teiHeader_rule by (auto; vm_compute; discriminate).
    apply lacks_true_iff.
  - rewrite in_checkStructure_required, text_rule by (auto; vm_compute; discriminate).
    apply lacks_true_iff.
  - rewrite in_checkStructure_required, fileDesc_rule by (auto; vm_compute; discriminate).
    rewrite exists_first_iff.
    split; intros (h & Hh & Hl); exists h; (split; [exact Hh|]); now apply lacks_true_iff.
  - intros elem Helem.
    assert (Hx : msg_in_fileDesc elem <> msg_namespace).
    { unfold requiredInFileDesc in Helem. simpl in Helem.
      destruct Helem as [<-|[<-|[<-|[]]]]; vm_compute; discriminate. }
    rewrite in_checkStructure_required, in_fileDesc_rule by auto.
    split.
    + intros (h & fd & Hh & Hfd & Hl). exists h. split; [now apply first_named_iff|].
      exists fd. split; [now apply first_named_iff|]. now apply lacks_true_iff.
    + intros (h & Hh & fd & Hfd & Hl).
      exists h, fd. repeat split; try (now apply first_named_iff). now apply lacks_true_iff.
  - rewrite in_checkStructure_required, title_rule by (auto; vm_compute; discriminate).
    split.
    + intros (h & fd & ts & Hh & Hfd & Hts & Hl). exists h. split; [now apply first_named_iff|].
      exists fd. split; [now apply first_named_iff|].
      exists ts. split; [now apply first_named_iff|]. now apply lacks_true_iff.
    + intros (h & Hh & fd & Hfd & ts & Hts & Hl).
      exists h, fd, ts. repeat split; try (now apply first_named_iff).
      now apply lacks_true_iff.
  - rewrite in_checkStructure_required, body_rule by (auto; vm_compute; discriminate).
    rewrite exists_first_iff.
    split; intros (t & Hh & Hl); exists t; (split; [exact Hh|]); now apply lacks_true_iff.
Qed.

Lemma required_elements_by_descendant_search_witness :
  In (err msg_title)
     (validateTEI_messages sample_platform (text_of two_titleStmt_root))
  <-> exists h, first_in_order two_titleStmt_root (js "teiHeader") h
        /\ exists fd, first_in_order h (js "fileDesc") fd
             /\ exists ts, first_in_order fd (js "titleStmt") ts
                  /\ ~ has_descendant ts (js "title").
Proof.
  destruct (required_elements_by_descendant_search sample_platform
              (text_of two_titleStmt_root) two_titleStmt_root two_titleStmt_root
              eq_refl eq_refl eq_refl) as (_ & _ & _ & _ & H & _).
  exact H.
Defined.

(** Two examples: a [teiHeader] nested inside [text] counts
    as the header of the root; and the [title] error is displayed when the
    first [titleStmt] has no [title], even though a later one has. *)
Example header_nested_in_text_counts :
  validateTEI_messages sample_platform (text_of header_in_text_root) = [ok msg_conforms].
Proof. reflexivity. Qed.

Example only_first_titleStmt_examined :
  validateTEI_messages sample_platform (text_of two_titleStmt_root) = [err msg_title].
Proof. reflexivity. Qed.

(* ===================================================================== *)
(** * Properties of the edit history *)
(* ===================================================================== *)

Lemma addToHistory_log content st :
  historyRef (addToHistory content st)
  = firstn (currentIndexRef st + 1) (historyRef st) ++ [content].
Proof. reflexivity. Qed.

Lemma addToHistory_cursor content st :
  currentIndexRef (addToHistory content st)
  = length (firstn (currentIndexRef st + 1) (historyRef st)).
Proof.
  unfold addToHistory. simpl. rewrite length_app. simpl. lia.
Qed.

Lemma addToHistory_cursor_last content st :
  currentIndexRef (addToHistory content st) = length (historyRef (addToHistory content st)) - 1.
Proof. reflexivity. Qed.

Lemma addToHistory_at_cursor content st :
  nth_error (historyRef (addToHistory content st)) (currentIndexRef (addToHistory content st))
  = Some content.
Proof.
  rewrite addToHistory_cursor, addToHistory_log.
  rewrite nth_error_app2, Nat.sub_diag by lia. reflexivity.
Qed.

Lemma firstn_snoc_all {A} (l : list A) x :
  firstn (length l + 1) (l ++ [x]) = l ++ [x].
Proof.
  apply firstn_all2. rewrite length_app. simpl. lia.
Qed.

Lemma firstn_snoc_drop {A} (l : list A) x y :
  firstn (length l + 1) (l ++ [x; y]) = l ++ [x].
Proof.
  rewrite firstn_app, firstn_all2 by lia.
  replace (length l + 1 - length l) with 1 by lia. reflexivity.
Qed.

Lemma redo_at_end st :
  length (historyRef st) - 1 <= currentIndexRef st -> redo st = st.
Proof.
  intros H. unfold redo. destruct (Nat.ltb_spec (currentIndexRef st) (length (historyRef st) - 1)).
  - lia.
  - reflexivity.
Qed.

Lemma undo_at_start st : currentIndexRef st = 0 -> undo st = st.
Proof. intros H. unfold undo. now rewrite H. Qed.

Lemma undo_log st : historyRef (undo st) = historyRef st.
Proof. unfold undo. now destruct (0 <? currentIndexRef st). Qed.

Lemma redo_log st : historyRef (redo st) = historyRef st.
Proof. unfold redo. now destruct (_ <? _). Qed.

Lemma undo_cursor st :
  0 < currentIndexRef st -> currentIndexRef (undo st) = currentIndexRef st - 1.
Proof. intros H. unfold undo. apply Nat.ltb_lt in H. now rewrite H. Qed.

Lemma undo_buffer st :
  0 < currentIndexRef st ->
  xmlContent (undo st) = nth_error (historyRef st) (currentIndexRef st - 1).
Proof. intros H. unfold undo. apply Nat.ltb_lt in H. now rewrite H. Qed.

Lemma redo_cursor st :
  currentIndexRef st < length (historyRef st) - 1 ->
  currentIndexRef (redo st) = currentIndexRef st + 1.
Proof. intros H. unfold redo. apply Nat.ltb_lt in H. now rewrite H. Qed.

Lemma redo_buffer st :
  currentIndexRef st < length (historyRef st) - 1 ->
  xmlContent (redo st) = nth_error (historyRef st) (currentIndexRef st + 1).
Proof. intros H. unfold redo. apply Nat.ltb_lt in H. now rewrite H. Qed.

Lemma iter_fixed {A} (f : A -> A) x n : f x = x -> Nat.iter n f x = x.
Proof. intros H. induction n; simpl; congruence. Qed.

(** C7. From every state, [addToHistory a; addToHistory b; undo;
    addToHistory c] leaves the log equal to its part up to the original
    cursor followed by [a; c], with the cursor on the last index, where [c]
    is stored; the entry [b] is gone and no number of [redo] changes the
    state any more. Each [addToHistory] truncates the log after the cursor,
    appends the snapshot and moves the cursor to the last index. *)
Theorem branch_discard (st : Editor) (a b c : js_string) :
  let st' := addToHistory c (undo (addToHistory b (addToHistory a st))) in
  historyRef st' = firstn (currentIndexRef st + 1) (historyRef st) ++ [a; c]
  /\ currentIndexRef st' = length (historyRef st') - 1
  /\ nth_error (historyRef st') (currentIndexRef st') = Some c
  /\ xmlContent (undo (addToHistory b (addToHistory a st))) = Some a
  /\ (forall n, Nat.iter n redo st' = st')
  /\ (forall x s,
        historyRef (addToHistory x s) = firstn (currentIndexRef s + 1) (historyRef s) ++ [x]
        /\ currentIndexRef (addToHistory x s) = length (historyRef (addToHistory x s)) - 1).
Proof.
  intros st'.
  set (p := firstn (currentIndexRef st + 1) (historyRef st)).
  assert (Ha : historyRef (addToHistory a st) = p ++ [a]) by reflexivity.
  assert (Ia : currentIndexRef (addToHistory a st) = length p) by apply addToHistory_cursor.
  assert (Hb : historyRef (addToHistory b (addToHistory a st)) = p ++ [a; b]).
  { rewrite addToHistory_log, Ha, Ia, firstn_snoc_all, <- app_assoc. reflexivity. }
  assert (Ib : currentIndexRef (addToHistory b (addToHistory a st)) = length p + 1).
  { rewrite addToHistory_cursor, Ha, Ia, firstn_snoc_all, length_app. reflexivity. }
  assert (Hu : historyRef (undo (addToHistory b (addToHistory a st))) = p ++ [a; b]
               /\ currentIndexRef (undo (addToHistory b (addToHistory a st))) = length p
               /\ xmlContent (undo (addToHistory b (addToHistory a st))) = Some a).
  { rewrite undo_log, undo_cursor, undo_buffer by lia. rewrite Hb, Ib.
    replace (length p + 1 - 1) with (length p) by lia.
    repeat split. rewrite nth_error_app2, Nat.sub_diag by lia. reflexivity. }
  destruct Hu as (Hu & Iu & Xu).
  assert (Hc : historyRef st' = p ++ [a; c]).
  { subst st'. rewrite addToHistory_log, Hu, Iu, firstn_snoc_drop, <- app_assoc. reflexivity. }
  split; [exact Hc|]. split; [reflexivity|]. split; [apply addToHistory_at_cursor|].
  split; [exact Xu|]. split; [|intros x s; split; reflexivity].
  intros n. apply iter_fixed, redo_at_end.
  subst st'. rewrite addToHistory_cursor_last. lia.
Qed.

(** C10. In every state, [undo] and [redo] leave the log (and the displayed
    messages) as they are; when [undo] acts (cursor above 0) the cursor goes
    down by one, when [redo] acts (cursor below the last index) it goes up
    by one, and the buffer receives what the log holds at the new cursor,
    which is a snapshot whenever the cursor was within the log; when they
    do not act the state is unchanged. *)
Theorem undo_redo_frame (st : Editor) :
  historyRef (undo st) = historyRef st
  /\ historyRef (redo st) = historyRef st
  /\ validationMessages (undo st) = validationMessages st
  /\ validationMessages (redo st) = validationMessages st
  /\ (0 < currentIndexRef st ->
      currentIndexRef (undo st) = currentIndexRef st - 1
      /\ xmlContent (undo st) = nth_error (historyRef (undo st)) (currentIndexRef (undo st))
      /\ (cursor_valid st -> exists s, xmlContent (undo st) = Some s))
  /\ (currentIndexRef st < length (historyRef st) - 1 ->
      currentIndexRef (redo st) = currentIndexRef st + 1
      /\ xmlContent (redo st) = nth_error (historyRef (redo st)) (currentIndexRef (redo st))
      /\ exists s, xmlContent (redo st) = Some s)
  /\ (currentIndexRef st = 0 -> undo st = st)
  /\ (length (historyRef st) - 1 <= currentIndexRef st -> redo st = st).
Proof.
  split; [apply undo_log|]. split; [apply redo_log|].
  split; [unfold undo; now destruct (0 <? currentIndexRef st)|].
  split; [unfold redo; now destruct (_ <? _)|].
  split; [|split; [|split; [apply undo_at_start|apply redo_at_end]]].
  - intros H. rewrite undo_log, undo_cursor, undo_buffer by exact H.
    repeat split. unfold cursor_valid. intros Hv.
    destruct (nth_error (historyRef st) (currentIndexRef st - 1)) eqn:E; [eauto|].
    apply nth_error_None in E. lia.
  - intros H. rewrite redo_log, redo_cursor, redo_buffer by exact H.
    repeat split.
    destruct (nth_error (historyRef st) (currentIndexRef st + 1)) eqn:E; [eauto|].
    apply nth_error_None in E. lia.
Qed.

Lemma undo_redo_frame_witness :
  currentIndexRef (undo sample_editor) = 0
  /\ xmlContent (undo sample_editor) = Some (js "<a/>")
  /\ currentIndexRef (redo sample_editor) = 2
  /\ xmlContent (redo sample_editor) = Some (js "<c/>").
Proof.
  destruct (undo_redo_frame sample_editor) as (_ & _ & _ & _ & Hu & Hr & _).
  destruct Hu as (Hu1 & Hu2 & _); [unfold sample_editor; simpl; lia|].
  destruct Hr as (Hr1 & Hr2 & _); [unfold sample_editor; simpl; lia|].
  split; [exact Hu1|]. split; [exact Hu2|]. split; [exact Hr1|exact Hr2].
Defined.

(** The invariants of the log: from the first render on, the cursor points
    into the log and the buffer shows the snapshot under it. *)
Lemma initial_invariants doc : cursor_valid (initial doc) /\ buffer_in_sync (initial doc).
Proof. split; [unfold cursor_valid; simpl; lia|reflexivity]. Qed.

Lemma addToHistory_valid content st : cursor_valid (addToHistory content st).
Proof.
  unfold cursor_valid. rewrite addToHistory_cursor_last, addToHistory_log, length_app.
  simpl. lia.
Qed.

Lemma handleContentChange_invariants content st :
  cursor_valid (handleContentChange content st)
  /\ buffer_in_sync (handleContentChange content st).
Proof.
  split; [apply addToHistory_valid|].
  unfold buffer_in_sync, handleContentChange. now rewrite addToHistory_at_cursor.
Qed.

Lemma undo_invariants st :
  cursor_valid st -> buffer_in_sync st ->
  cursor_valid (undo st) /\ buffer_in_sync (undo st).
Proof.
  unfold cursor_valid, buffer_in_sync, undo. intros Hv Hs.
  destruct (0 <? currentIndexRef st); simpl; [split; [lia|reflexivity]|now split].
Qed.

Lemma redo_invariants st :
  cursor_valid st -> buffer_in_sync st ->
  cursor_valid (redo st) /\ buffer_in_sync (redo st).
Proof.
  unfold cursor_valid, buffer_in_sync, redo. intros Hv Hs.
  destruct (Nat.ltb_spec (currentIndexRef st) (length (historyRef st) - 1)); simpl;
    [split; [lia|reflexivity]|now split].
Qed.

(* ===================================================================== *)
(** * Properties of the formatter *)
(* ===================================================================== *)

Lemma parse_failed_throws P s :
  parse_failed P s = true -> exists m, formatXML_try P (Some s) = Throw m.
Proof.
  unfold parse_failed, formatXML_try, bind. simpl.
  destruct (parseFromString P s) as [d|m]; [|eauto].
  destruct (docGetElementsByTagName P d (js "parsererror")); [discriminate|].
  simpl. eauto.
Qed.

Lemma formatXML_thrown P st m :
  formatXML_try P (xmlContent st) = Throw m ->
  formatXML P st = setValidationMessages [err m] st.
Proof. intros H. unfold formatXML. now rewrite H. Qed.

(** C6. In every state, when the parse of the buffer fails (the parser
    returns a document holding a [parsererror] element, or throws),
    [formatXML] leaves the buffer, the log and the cursor as they were; it
    only displays one error message. *)
Theorem formatXML_failure_changes_nothing (P : Platform) (st : Editor) :
  parse_failed P (ToString (xmlContent st)) = true ->
  xmlContent (formatXML P st) = xmlContent st
  /\ historyRef (formatXML P st) = historyRef st
  /\ currentIndexRef (formatXML P st) = currentIndexRef st
  /\ exists m, validationMessages (formatXML P st) = [err m].
Proof.
  intros H.
  assert (Ht : exists m, formatXML_try P (xmlContent st) = Throw m).
  { destruct (parse_failed_throws P _ H) as [m Hm]. exists m. rewrite <- Hm.
    unfold formatXML_try. reflexivity. }
  destruct Ht as [m Hm]. rewrite (formatXML_thrown P st m Hm).
  repeat split. now exists m.
Qed.

Lemma formatXML_failure_changes_nothing_witness :
  xmlContent (formatXML sample_platform broken_editor) = Some broken_text
  /\ historyRef (formatXML sample_platform broken_editor) = [js "<a/>"; broken_text]
  /\ currentIndexRef (formatXML sample_platform broken_editor) = 1
  /\ exists m, validationMessages (formatXML sample_platform broken_editor) = [err m].
Proof.
  exact (formatXML_failure_changes_nothing sample_platform broken_editor eq_refl).
Defined.

(** The message is the fixed one when the parser returned a document. *)
Lemma formatXML_parsererror_message P st d :
  parseFromString P (ToString (xmlContent st)) = Normal d ->
  parse_failed P (ToString (xmlContent st)) = true ->
  validationMessages (formatXML P st) = [err msg_fix_syntax].
Proof.
  intros Hp Hf. unfold formatXML, formatXML_try, bind. rewrite Hp.
  unfold parse_failed in Hf. rewrite Hp in Hf.
  destruct (docGetElementsByTagName P d (js "parsererror")); [discriminate|reflexivity].
Qed.


(** ** Replacement, one match at a time *)

Lemma replace_all_cons m c t :
  replace_all m (c :: t) =
  match m (c :: t) with
  | Some (r, n) => r ++ replace_all m (skipn n t)
  | None => c :: replace_all m t
  end.
Proof.
  simp replace_all. destruct (m (c :: t)) as [[r n]|]; reflexivity.
Qed.

Lemma length_ind {A} (Q : list A -> Prop) :
  (forall s, (forall t, length t < length s -> Q t) -> Q s) -> forall s, Q s.
Proof.
  intros H s. remember (length s) as n eqn:Hn. revert s Hn.
  induction n as [n IH] using lt_wf_ind. intros s ->.
  apply H. intros t Ht. now apply (IH (length t)).
Qed.

Lemma greedy_skipn p s : greedy p s ++ skipn (length (greedy p s)) s = s.
Proof.
  induction s as [|c t IH]; simpl; [reflexivity|].
  destruct (p c); simpl; [now rewrite IH|reflexivity].
Qed.

Lemma greedy_Forall p s : Forall (fun c => p c = true) (greedy p s).
Proof.
  induction s as [|c t IH]; simpl; [constructor|].
  destruct (p c) eqn:E; [now constructor|constructor].
Qed.

Lemma greedy_rest p s :
  match skipn (length (greedy p s)) s with
  | c :: _ => p c = false
  | [] => True
  end.
Proof.
  induction s as [|c t IH]; simpl; [exact I|].
  destruct (p c) eqn:E; simpl; [exact IH|exact E].
Qed.

Lemma space_not_GT c : is_space c = true -> N.eqb c GT = false.
Proof.
  intros H. destruct (N.eqb_spec c GT) as [->|]; [discriminate|reflexivity].
Qed.

Lemma space_not_LT c : is_space c = true -> N.eqb c LT = false.
Proof.
  intros H. destruct (N.eqb_spec c LT) as [->|]; [discriminate|reflexivity].
Qed.

Lemma line_terminator_space c : is_line_terminator c = true -> is_space c = true.
Proof. intros H. unfold is_space. rewrite H. apply orb_true_r. Qed.

(** ** First expression: line feeds between tags *)

Lemma tag_gap_None c t :
  N.eqb c GT && starts_with LT t = false -> tag_gap (c :: t) = None.
Proof.
  destruct t as [|d t]; simpl; [reflexivity|]. now intros ->.
Qed.

Lemma tag_gap_Some c t :
  N.eqb c GT && starts_with LT t = true ->
  exists t', t = LT :: t'
    /\ tag_gap (c :: t)
       = Some (GT :: LF :: LT :: greedy (N.eqb SLASH) t',
               1 + length (greedy (N.eqb SLASH) t')).
Proof.
  destruct t as [|d t]; simpl; [now rewrite andb_false_r|].
  intros H. rewrite H. apply andb_true_iff in H. destruct H as [Hc Hd].
  apply N.eqb_eq in Hc, Hd. subst. now exists t.
Qed.

Lemma replace_tag_gap_head s :
  starts_with LT (replace_all tag_gap s) = starts_with LT s.
Proof.
  destruct s as [|c t]; [reflexivity|]. rewrite replace_all_cons.
  destruct (N.eqb c GT && starts_with LT t) eqn:E.
  - destruct (tag_gap_Some c t E) as (t' & Ht' & Hm). rewrite Hm. subst t. simpl.
    apply andb_true_iff in E. destruct E as [E _]. apply N.eqb_eq in E. now subst.
  - now rewrite (tag_gap_None c t E).
Qed.

Lemma has_gap_skip g x :
  Forall (fun c => N.eqb c GT = false) g -> has_gap (g ++ x) = has_gap x.
Proof.
  induction 1 as [|c g Hc _ IH]; simpl; [reflexivity|]. now rewrite Hc, IH.
Qed.

Lemma slash_not_GT c : N.eqb SLASH c = true -> N.eqb c GT = false.
Proof. intros H. apply N.eqb_eq in H. now subst. Qed.

(** After the first replacement no [>] is followed by [<]. *)
Lemma replace_tag_gap_no_gap s : has_gap (replace_all tag_gap s) = false.
Proof.
  induction s as [s IH] using length_ind. destruct s as [|c t]; [reflexivity|].
  rewrite replace_all_cons.
  destruct (N.eqb c GT && starts_with LT t) eqn:E.
  - destruct (tag_gap_Some c t E) as (t' & Ht' & Hm). rewrite Hm. subst t.
    cbn [app has_gap starts_with]. change (N.eqb LF LT) with false.
    change (N.eqb LF GT) with false. change (N.eqb LT GT) with false.
    rewrite andb_false_r. simpl orb.
    rewrite has_gap_skip.
    + apply IH. simpl. rewrite length_skipn. lia.
    + eapply Forall_impl; [|apply greedy_Forall]. apply slash_not_GT.
  - rewrite (tag_gap_None c t E). simpl.
    rewrite replace_tag_gap_head, E. apply IH. simpl. lia.
Qed.

(** A text without such a pair is left alone. *)
Lemma replace_tag_gap_fixed s : has_gap s = false -> replace_all tag_gap s = s.
Proof.
  induction s as [|c t IH]; [reflexivity|]. simpl. intros H.
  apply orb_false_iff in H. destruct H as [H1 H2].
  rewrite replace_all_cons, (tag_gap_None c t H1). now rewrite IH.
Qed.

(** ** Runs of spaces *)

Lemma collapse_nonspace c t :
  is_space c = false ->
  replace_all space_run (c :: t) = c :: replace_all space_run t.
Proof. intros H. rewrite replace_all_cons. simpl. now rewrite H. Qed.

Lemma collapse_space c t :
  is_space c = true ->
  replace_all space_run (c :: t)
  = SP :: replace_all space_run (skipn (length (greedy is_space t)) t).
Proof. intros H. rewrite replace_all_cons. simpl. now rewrite H. Qed.

Lemma greedy_snoc_stop p s c :
  p c = false ->
  greedy p (s ++ [c]) = greedy p s
  /\ skipn (length (greedy p s)) (s ++ [c]) = skipn (length (greedy p s)) s ++ [c].
Proof.
  intros Hc. induction s as [|d s IH]; simpl.
  - now rewrite Hc.
  - destruct (p d); simpl; [|now split]. destruct IH as [-> ->]. now split.
Qed.

Lemma collapse_snoc s c :
  is_space c = false ->
  replace_all space_run (s ++ [c]) = replace_all space_run s ++ [c].
Proof.
  intros Hc. induction s as [s IH] using length_ind. destruct s as [|d t].
  - simpl. now rewrite collapse_nonspace.
  - simpl. destruct (is_space d) eqn:Hd.
    + rewrite !collapse_space by exact Hd.
      destruct (greedy_snoc_stop is_space t c Hc) as [-> ->].
      rewrite IH; [reflexivity|]. simpl. rewrite length_skipn. lia.
    + rewrite !collapse_nonspace by exact Hd. rewrite IH; [reflexivity|]. simpl. lia.
Qed.

Lemma collapse_head_nonspace s :
  match s with c :: _ => is_space c = false | [] => True end ->
  greedy is_space (replace_all space_run s) = [].
Proof.
  destruct s as [|c t]; [reflexivity|]. intros H.
  rewrite collapse_nonspace by exact H. simpl. now rewrite H.
Qed.

Lemma collapse_idempotent s :
  replace_all space_run (replace_all space_run s) = replace_all space_run s.
Proof.
  induction s as [s IH] using length_ind. destruct s as [|c t]; [reflexivity|].
  destruct (is_space c) eqn:Hc.
  - rewrite (collapse_space c t Hc).
    rewrite collapse_space by reflexivity.
    rewrite collapse_head_nonspace by apply greedy_rest. simpl skipn.
    rewrite IH; [reflexivity|]. simpl. rewrite length_skipn. lia.
  - rewrite (collapse_nonspace c t Hc), (collapse_nonspace _ _ Hc).
    rewrite IH; [reflexivity|]. simpl. lia.
Qed.

Lemma In_skipn {A} (x : A) n l : In x (skipn n l) -> In x l.
Proof.
  revert l. induction n as [|n IH]; intros [|a l]; simpl; auto.
Qed.

(** Collapsing brings in no code unit but the space. *)
Lemma collapse_In c s :
  In c (replace_all space_run s) -> In c s \/ c = SP.
Proof.
  induction s as [s IH] using length_ind. destruct s as [|d t]; [intros []|].
  destruct (is_space d) eqn:Hd.
  - rewrite (collapse_space d t Hd). intros [<-|H]; [now right|].
    apply IH in H; [|simpl; rewrite length_skipn; lia].
    destruct H as [H|H]; [left; right; now apply In_skipn in H|now right].
  - rewrite (collapse_nonspace d t Hd). intros [<-|H]; [left; now left|].
    apply IH in H; [|simpl; lia]. destruct H as [H|H]; [left; now right|now right].
Qed.

(** ** Second expression: spaces inside tags *)

Lemma lazy_until_gt_Some t g :
  lazy_until_gt t = Some g ->
  exists r, t = g ++ GT :: r /\ forallb plain g = true /\ skipn (length g + 1) t = r.
Proof.
  revert g. induction t as [|c t IH]; intros g; simpl; [discriminate|].
  destruct (N.eqb_spec c GT) as [->|Hc].
  - intros H. injection H as <-. now exists t.
  - destruct (is_line_terminator c) eqn:Hl; [discriminate|].
    destruct (lazy_until_gt t) as [g'|]; [|discriminate].
    intros H. injection H as <-. destruct (IH g' eq_refl) as (r & -> & Hp & Hs).
    exists r. repeat split; auto. simpl. unfold plain at 1. rewrite Hl.
    apply N.eqb_neq in Hc. now rewrite Hc.
Qed.

Lemma lazy_until_gt_plain g r :
  forallb plain g = true -> lazy_until_gt (g ++ GT :: r) = Some g.
Proof.
  induction g as [|c g IH]; simpl; [reflexivity|].
  intros H. apply andb_true_iff in H. destruct H as [Hc Hg].
  unfold plain in Hc. apply andb_true_iff in Hc. destruct Hc as [H1 H2].
  apply negb_true_iff in H1, H2. now rewrite H1, H2, IH.
Qed.

Lemma lazy_until_gt_line t b : lazy_until_gt (t ++ LF :: b) = lazy_until_gt t.
Proof.
  induction t as [|c t IH]; simpl; [reflexivity|]. now rewrite IH.
Qed.

Lemma lazy_until_gt_spaces w :
  Forall (fun c => is_space c = true) w -> lazy_until_gt w = None.
Proof.
  induction 1 as [|c w Hc _ IH]; simpl; [reflexivity|].
  rewrite (space_not_GT c Hc), IH. now destruct (is_line_terminator c).
Qed.

Lemma lazy_until_gt_trail t w :
  Forall (fun c => is_space c = true) w ->
  lazy_until_gt (t ++ w) = lazy_until_gt t.
Proof.
  intros Hw. induction t as [|c t IH]; simpl; [now apply lazy_until_gt_spaces|].
  now rewrite IH.
Qed.

Lemma plain_collapse g :
  forallb plain g = true -> forallb plain (replace_all space_run g) = true.
Proof.
  intros H. apply forallb_forall. intros c Hc.
  apply collapse_In in Hc. destruct Hc as [Hc| ->]; [|reflexivity].
  rewrite forallb_forall in H. auto.
Qed.

(** The two ways the second replacement handles the head of a text: a tag
    is found and collapsed, or the head is copied. *)
Lemma replace_tag_cases c t :
  (exists g r,
      c = LT /\ t = g ++ GT :: r /\ forallb plain g = true
      /\ replace_all tag (c :: t)
         = LT :: replace_all space_run g ++ GT :: replace_all tag r)
  \/ ((N.eqb c LT = false \/ lazy_until_gt t = None)
      /\ replace_all tag (c :: t) = c :: replace_all tag t).
Proof.
  rewrite replace_all_cons. simpl.
  destruct (N.eqb_spec c LT) as [->|Hc]; [|right; split; [now left|reflexivity]].
  destruct (lazy_until_gt t) as [g|] eqn:Hg; [|right; split; [now right|reflexivity]].
  left. destruct (lazy_until_gt_Some t g Hg) as (r & Ht & Hp & Hs).
  exists g, r. repeat split; auto. rewrite Hs.
  change (LT :: g ++ [GT]) with ((LT :: g) ++ [GT]).
  rewrite collapse_snoc, collapse_nonspace by reflexivity.
  simpl. now rewrite <- app_assoc.
Qed.

Lemma replace_tag_found g r :
  forallb plain g = true ->
  replace_all tag (LT :: g ++ GT :: r)
  = LT :: replace_all space_run g ++ GT :: replace_all tag r.
Proof.
  intros Hp. destruct (replace_tag_cases LT (g ++ GT :: r))
    as [(g' & r' & _ & Ht & Hp' & ->)|[[H|H] _]].
  - pose proof (lazy_until_gt_plain g r Hp) as H1.
    rewrite Ht, (lazy_until_gt_plain g' r' Hp') in H1. injection H1 as ->.
    apply app_inv_head in Ht. now injection Ht as ->.
  - discriminate.
  - now rewrite lazy_until_gt_plain in H.
Qed.

Lemma replace_tag_copied c t :
  N.eqb c LT = false \/ lazy_until_gt t = None ->
  replace_all tag (c :: t) = c :: replace_all tag t.
Proof.
  intros H. destruct (replace_tag_cases c t)
    as [(g & r & -> & -> & Hp & _)|[_ E]]; [|exact E].
  destruct H as [H|H]; [discriminate|]. now rewrite lazy_until_gt_plain in H.
Qed.

Lemma replace_tag_head x s :
  starts_with x (replace_all tag s) = starts_with x s.
Proof.
  destruct s as [|c t]; [reflexivity|].
  destruct (replace_tag_cases c t) as [(g & r & -> & -> & Hp & ->)|[_ ->]]; reflexivity.
Qed.

Lemma lazy_until_gt_replaced t :
  lazy_until_gt t = None -> lazy_until_gt (replace_all tag t) = None.
Proof.
  induction t as [|c t IH]; [reflexivity|]. intros H.
  assert (Hc : N.eqb c LT = false \/ lazy_until_gt t = None).
  { simpl in H. destruct (N.eqb c GT); [discriminate|].
    destruct (is_line_terminator c) eqn:Hl.
    - left. apply space_not_LT. now apply line_terminator_space.
    - right. now destruct (lazy_until_gt t). }
  rewrite (replace_tag_copied c t Hc). simpl in *.
  destruct (N.eqb c GT); [discriminate|].
  destruct (is_line_terminator c); [reflexivity|].
  destruct (lazy_until_gt t); [discriminate|]. now rewrite IH.
Qed.

(** The second replacement changes nothing in its own result. *)
Lemma replace_tag_idempotent s :
  replace_all tag (replace_all tag s) = replace_all tag s.
Proof.
  induction s as [s IH] using length_ind. destruct s as [|c t]; [reflexivity|].
  destruct (replace_tag_cases c t) as [(g & r & -> & -> & Hp & ->)|[Hc ->]].
  - rewrite replace_tag_found by now apply plain_collapse.
    rewrite collapse_idempotent, IH; [reflexivity|].
    simpl. rewrite length_app. simpl. lia.
  - rewrite replace_tag_copied.
    + rewrite IH; [reflexivity|]. simpl. lia.
    + destruct Hc as [Hc|Hc]; [now left|right]. now apply lazy_until_gt_replaced.
Qed.

(** It brings in no code unit but the space. *)
Lemma replace_tag_In c s : In c (replace_all tag s) -> In c s \/ c = SP.
Proof.
  induction s as [s IH] using length_ind. destruct s as [|d t]; [intros []|].
  destruct (replace_tag_cases d t) as [(g & r & -> & -> & Hp & ->)|[_ ->]].
  - intros [<-|H]; [left; now left|]. apply in_app_iff in H. destruct H as [H|[<-|H]].
    + apply collapse_In in H. destruct H as [H|H]; [|now right].
      left. right. apply in_app_iff. now left.
    + left. right. apply in_app_iff. right. now left.
    + apply IH in H; [|simpl; rewrite length_app; simpl; lia].
      destruct H as [H|H]; [|now right]. left. right. apply in_app_iff. right. now right.
  - intros [<-|H]; [left; now left|]. apply IH in H; [|simpl; lia].
    destruct H as [H|H]; [left; now right|now right].
Qed.

(** It works line by line. *)
Lemma replace_tag_line a b :
  replace_all tag (a ++ LF :: b) = replace_all tag a ++ LF :: replace_all tag b.
Proof.
  induction a as [a IH] using length_ind. destruct a as [|c t].
  - simpl. now rewrite replace_tag_copied by now left.
  - destruct (replace_tag_cases c t) as [(g & r & -> & -> & Hp & ->)|[Hc ->]].
    + simpl. rewrite <- app_assoc. simpl. rewrite replace_tag_found by exact Hp.
      rewrite IH; [|simpl; rewrite length_app; simpl; lia].
      now rewrite <- app_assoc.
    + simpl. rewrite replace_tag_copied.
      * rewrite IH; [reflexivity|simpl; lia].
      * destruct Hc as [Hc|Hc]; [now left|right]. now rewrite lazy_until_gt_line.
Qed.

(** Spaces at the end of the text are out of its reach. *)
Lemma replace_tag_trail a w :
  Forall (fun c => is_space c = true) w ->
  replace_all tag (a ++ w) = replace_all tag a ++ w.
Proof.
  intros Hw. induction a as [a IH] using length_ind. destruct a as [|c t].
  - simpl. clear IH. induction Hw as [|d w Hd _ IHw]; [reflexivity|].
    rewrite replace_tag_copied by (left; now apply space_not_LT). now rewrite IHw.
  - destruct (replace_tag_cases c t) as [(g & r & -> & -> & Hp & ->)|[Hc ->]].
    + simpl. rewrite <- app_assoc. simpl. rewrite replace_tag_found by exact Hp.
      rewrite IH; [|simpl; rewrite length_app; simpl; lia].
      now rewrite <- app_assoc.
    + simpl. rewrite replace_tag_copied.
      * rewrite IH; [reflexivity|simpl; lia].
      * destruct Hc as [Hc|Hc]; [now left|right]. now rewrite lazy_until_gt_trail.
Qed.

Lemma replace_tag_lead w a :
  Forall (fun c => is_space c = true) w ->
  replace_all tag (w ++ a) = w ++ replace_all tag a.
Proof.
  induction 1 as [|d w Hd _ IHw]; [reflexivity|]. simpl.
  rewrite replace_tag_copied by (left; now apply space_not_LT). now rewrite IHw.
Qed.

(** ** Pairs of adjacent tags through the later steps *)

Lemma plain_not_GT g :
  forallb plain g = true -> Forall (fun c => N.eqb c GT = false) g.
Proof.
  intros H. apply Forall_forall. intros c Hc. rewrite forallb_forall in H.
  specialize (H c Hc). unfold plain in H. apply andb_true_iff in H.
  destruct H as [H _]. now apply negb_true_iff in H.
Qed.

Lemma has_gap_tag g r :
  forallb plain g = true ->
  has_gap (LT :: g ++ GT :: r) = starts_with LT r || has_gap r.
Proof.
  intros Hp. cbn [has_gap]. change (N.eqb LT GT) with false. simpl andb. simpl orb.
  rewrite has_gap_skip by now apply plain_not_GT.
  cbn [has_gap]. now rewrite N.eqb_refl.
Qed.

Lemma replace_tag_no_gap s :
  has_gap s = false -> has_gap (replace_all tag s) = false.
Proof.
  induction s as [s IH] using length_ind. destruct s as [|c t]; [reflexivity|].
  destruct (replace_tag_cases c t) as [(g & r & -> & -> & Hp & ->)|[_ ->]].
  - rewrite !has_gap_tag by (try apply plain_collapse; exact Hp).
    rewrite replace_tag_head. intros H. apply orb_false_iff in H. destruct H as [-> H].
    apply IH; [|exact H]. simpl. rewrite length_app. simpl. lia.
  - cbn [has_gap]. rewrite replace_tag_head. intros H.
    apply orb_false_iff in H. destruct H as [-> H]. apply IH; [|exact H]. simpl. lia.
Qed.

Lemma starts_with_app x a b :
  a <> [] -> starts_with x (a ++ b) = starts_with x a.
Proof. destruct a; [congruence|reflexivity]. Qed.

Lemma has_gap_line a b : has_gap (a ++ LF :: b) = has_gap a || has_gap b.
Proof.
  induction a as [|c a IH]; [reflexivity|]. simpl. rewrite IH.
  destruct a as [|d a]; simpl.
  - change (N.eqb LF LT) with false. now rewrite andb_false_r.
  - now rewrite orb_assoc.
Qed.

Lemma has_gap_prefix a b : has_gap (a ++ b) = false -> has_gap a = false.
Proof.
  induction a as [|c a IH]; [reflexivity|]. simpl. intros H.
  apply orb_false_iff in H. destruct H as [H1 H2]. rewrite (IH H2), orb_false_r.
  destruct a as [|d a]; [now rewrite andb_false_r|exact H1].
Qed.

Lemma spaces_not_GT w :
  Forall (fun c => is_space c = true) w -> Forall (fun c => N.eqb c GT = false) w.
Proof. intros H. eapply Forall_impl; [|exact H]. apply space_not_GT. Qed.

(** ** Trimming *)

Lemma trimStart_split m :
  exists w, Forall (fun c => is_space c = true) w /\ m = w ++ trimStart m.
Proof.
  induction m as [|c m (w & Hw & IH)]; [now exists []|]. simpl.
  destruct (is_space c) eqn:Hc.
  - exists (c :: w). split; [now constructor|]. simpl. now rewrite <- IH.
  - now exists [].
Qed.

Lemma trimEnd_split m :
  exists w, Forall (fun c => is_space c = true) w /\ m = trimEnd m ++ w.
Proof.
  destruct (trimStart_split (rev m)) as (w & Hw & H). exists (rev w). split.
  - now apply Forall_rev.
  - unfold trimEnd. rewrite <- rev_app_distr, <- H. now rewrite rev_involutive.
Qed.

Lemma trim_split m :
  exists w1 w2,
    Forall (fun c => is_space c = true) w1
    /\ Forall (fun c => is_space c = true) w2
    /\ m = w1 ++ trim m ++ w2.
Proof.
  destruct (trimStart_split m) as (w1 & H1 & E1).
  destruct (trimEnd_split (trimStart m)) as (w2 & H2 & E2).
  exists w1, w2. repeat split; auto. unfold trim. now rewrite <- E2.
Qed.

Lemma trimStart_fixed s : no_leading_space s = true -> trimStart s = s.
Proof.
  destruct s as [|c t]; [reflexivity|]. simpl. intros H.
  apply negb_true_iff in H. now rewrite H.
Qed.

Lemma trimStart_no_leading_space s : no_leading_space (trimStart s) = true.
Proof.
  induction s as [|c t IH]; [reflexivity|]. simpl.
  destruct (is_space c) eqn:Hc; [exact IH|]. simpl. now rewrite Hc.
Qed.

Lemma trimEnd_no_leading_space s :
  no_leading_space s = true -> no_leading_space (trimEnd s) = true.
Proof.
  intros H. destruct (trimEnd_split s) as (w & Hw & E).
  destruct (trimEnd s) as [|c t] eqn:Et; [reflexivity|].
  rewrite E in H. exact H.
Qed.

Lemma trimEnd_fixed s : no_leading_space (rev s) = true -> trimEnd s = s.
Proof.
  intros H. unfold trimEnd. rewrite (trimStart_fixed _ H). apply rev_involutive.
Qed.

Lemma trim_idempotent s : trim (trim s) = trim s.
Proof.
  assert (H1 : no_leading_space (trim s) = true).
  { unfold trim. apply trimEnd_no_leading_space, trimStart_no_leading_space. }
  assert (H2 : no_leading_space (rev (trim s)) = true).
  { unfold trim, trimEnd. rewrite rev_involutive. apply trimStart_no_leading_space. }
  unfold trim at 1. rewrite (trimStart_fixed _ H1). now apply trimEnd_fixed.
Qed.

Lemma trim_In c s : In c (trim s) -> In c s.
Proof.
  destruct (trim_split s) as (w1 & w2 & _ & _ & E). intros H.
  rewrite E, !in_app_iff. tauto.
Qed.

Lemma trim_no_gap s : has_gap s = false -> has_gap (trim s) = false.
Proof.
  destruct (trim_split s) as (w1 & w2 & H1 & _ & E). intros H.
  rewrite E, has_gap_skip in H by now apply spaces_not_GT.
  now apply has_gap_prefix in H.
Qed.

Lemma trim_replace_tag s :
  replace_all tag s = s -> replace_all tag (trim s) = trim s.
Proof.
  destruct (trim_split s) as (w1 & w2 & H1 & H2 & E). intros H.
  remember (trim s) as x eqn:Hx. clear Hx. subst s.
  rewrite replace_tag_lead, replace_tag_trail in H by assumption.
  apply app_inv_head in H. now apply app_inv_tail in H.
Qed.

(** ** Lines *)

Lemma split_lines_nonempty s : split_lines s <> [].
Proof.
  induction s as [|c t IH]; simpl; [discriminate|].
  destruct (N.eqb c LF); [discriminate|]. now destruct (split_lines t).
Qed.

Lemma join_split_lines s : join_lines (split_lines s) = s.
Proof.
  induction s as [|c t IH]; [reflexivity|]. simpl.
  destruct (N.eqb_spec c LF) as [->|Hc].
  - pose proof (split_lines_nonempty t) as Hne.
    destruct (split_lines t) as [|l ls]; [congruence|]. simpl in *. now rewrite IH.
  - pose proof (split_lines_nonempty t) as Hne.
    destruct (split_lines t) as [|l ls]; [congruence|].
    destruct ls as [|l' ls]; simpl in *; now rewrite <- IH.
Qed.

Lemma split_lines_no_LF s : Forall (fun l => ~ In LF l) (split_lines s).
Proof.
  induction s as [|c t IH]; simpl; [repeat constructor; auto|].
  destruct (N.eqb_spec c LF) as [->|Hc]; [constructor; auto|].
  destruct (split_lines t) as [|l ls]; [repeat constructor; simpl; intuition|].
  inversion IH as [|? ? Hl Hls]; subst. constructor; [|exact Hls].
  simpl. intuition.
Qed.

Lemma split_lines_line l s :
  ~ In LF l -> split_lines (l ++ LF :: s) = l :: split_lines s.
Proof.
  induction l as [|c l IH]; simpl; [reflexivity|]. intros H.
  destruct (N.eqb_spec c LF) as [->|Hc]; [tauto|]. rewrite IH by tauto. reflexivity.
Qed.

Lemma split_lines_single l : ~ In LF l -> split_lines l = [l].
Proof.
  induction l as [|c l IH]; simpl; [reflexivity|]. intros H.
  destruct (N.eqb_spec c LF) as [->|Hc]; [tauto|]. rewrite IH by tauto. reflexivity.
Qed.

Lemma split_join_lines ls :
  ls <> [] -> Forall (fun l => ~ In LF l) ls -> split_lines (join_lines ls) = ls.
Proof.
  induction ls as [|l ls IH]; [congruence|]. intros _ H.
  inversion H as [|? ? Hl Hls]; subst. destruct ls as [|l' ls].
  - simpl. now apply split_lines_single.
  - change (join_lines (l :: l' :: ls)) with (l ++ LF :: join_lines (l' :: ls)).
    rewrite split_lines_line by exact Hl. rewrite IH; [reflexivity|discriminate|exact Hls].
Qed.

Lemma replace_tag_join ls :
  replace_all tag (join_lines ls) = join_lines (map (replace_all tag) ls).
Proof.
  induction ls as [|l ls IH]; [reflexivity|]. destruct ls as [|l' ls]; [reflexivity|].
  change (join_lines (l :: l' :: ls)) with (l ++ LF :: join_lines (l' :: ls)).
  rewrite replace_tag_line, IH. reflexivity.
Qed.

Lemma has_gap_join ls :
  has_gap (join_lines ls) = false <-> Forall (fun l => has_gap l = false) ls.
Proof.
  induction ls as [|l ls IH]; [split; [constructor|reflexivity]|].
  destruct ls as [|l' ls].
  - simpl. split; [now repeat constructor|now inversion 1].
  - change (join_lines (l :: l' :: ls)) with (l ++ LF :: join_lines (l' :: ls)).
    rewrite has_gap_line, orb_false_iff, IH. split.
    + intros [H1 H2]. now constructor.
    + now inversion 1.
Qed.

Lemma replace_tag_no_LF l : ~ In LF l -> ~ In LF (replace_all tag l).
Proof.
  intros H Hin. apply replace_tag_In in Hin. destruct Hin as [Hin|Hin]; [auto|discriminate].
Qed.

(** The lines of a text the second replacement leaves alone are left alone
    one by one. *)
Lemma replace_tag_fixed_lines u :
  replace_all tag u = u ->
  Forall (fun l => replace_all tag l = l) (split_lines u).
Proof.
  intros H. rewrite <- (join_split_lines u) in H at 1. rewrite replace_tag_join in H.
  apply (f_equal split_lines) in H. rewrite split_join_lines in H.
  - apply Forall_forall. intros l Hl.
    assert (E : map (replace_all tag) (split_lines u) = map (fun l => l) (split_lines u))
      by now rewrite map_id.
    clear H. induction (split_lines u) as [|a ls IH]; [destruct Hl|].
    simpl in E. injection E as Ea Els. destruct Hl as [<-|Hl]; auto.
  - pose proof (split_lines_nonempty u). now destruct (split_lines u).
  - apply Forall_forall. intros l Hl. apply in_map_iff in Hl.
    destruct Hl as (l0 & <- & Hl0). apply replace_tag_no_LF.
    pose proof (split_lines_no_LF u) as Hn. rewrite Forall_forall in Hn. auto.
Qed.

(** ** The chain is idempotent *)

(** The three steps of [formatXML] applied to their own result change
    nothing. *)
Lemma normalize_idempotent s : normalize (normalize s) = normalize s.
Proof.
  unfold normalize.
  set (u := replace_all tag (replace_all tag_gap s)).
  assert (Hgap : has_gap u = false)
    by (apply replace_tag_no_gap, replace_tag_gap_no_gap).
  assert (Hfix : replace_all tag u = u) by apply replace_tag_idempotent.
  pose proof (replace_tag_fixed_lines u Hfix) as Hlines.
  pose proof (split_lines_no_LF u) as HnoLF.
  pose proof (split_lines_nonempty u) as Hne.
  rewrite <- (join_split_lines u), has_gap_join in Hgap.
  set (ls := split_lines u) in *. clearbody ls. clear u Hfix.
  assert (Hg : has_gap (join_lines (map trim ls)) = false).
  { apply has_gap_join, Forall_forall. intros l Hl. apply in_map_iff in Hl.
    destruct Hl as (l0 & <- & Hl0). apply trim_no_gap.
    rewrite Forall_forall in Hgap. auto. }
  rewrite (replace_tag_gap_fixed _ Hg), replace_tag_join, map_map.
  assert (Ht : map (fun l => replace_all tag (trim l)) ls = map trim ls).
  { apply map_ext_in. intros l Hl. apply trim_replace_tag.
    rewrite Forall_forall in Hlines. auto. }
  rewrite Ht, split_join_lines.
  - rewrite map_map. f_equal. apply map_ext. intros l. apply trim_idempotent.
  - destruct ls; [congruence|discriminate].
  - apply Forall_forall. intros l Hl. apply in_map_iff in Hl.
    destruct Hl as (l0 & <- & Hl0). intros Hin. apply trim_In in Hin.
    rewrite Forall_forall in HnoLF. now apply (HnoLF l0).
Qed.




(** In particular when the platform gives the formatted text back as it
    is. *)
Corollary formatXML_idempotent_verbatim (P : Platform) (st : Editor) (y : js_string)
    (d : Document P) :
  formatXML_try P (xmlContent st) = Normal y ->
  parseFromString P y = Normal d ->
  docGetElementsByTagName P d (js "parsererror") = [] ->
  serializeToString P d = Normal y ->
  formatXML_try P (Some y) = Normal y.
Proof.
  intros Hy Hp Herr Hs. unfold formatXML_try, bind in *. simpl ToString.
  rewrite Hp, Herr, Hs. simpl.
  destruct (parseFromString P (ToString (xmlContent st))) as [d0|]; [|discriminate].
  destruct (0 <? length _); [discriminate|].
  destruct (serializeToString P d0) as [s0|]; [|discriminate].
  injection Hy as <-. now rewrite normalize_idempotent.
Qed.


(** The worked example of a formatting. *)
Example normalize_example :
  normalize (js "<a  x='1'   y='2'><b>text  here</b><c/>   </a>")
  = js "<a x='1' y='2'>" ++ [LF] ++ js "<b>text  here</b>" ++ [LF] ++ js "<c/>   </a>".
Proof. reflexivity. Qed.

(* ===================================================================== *)
(** * Further properties of the edit history *)
(* ===================================================================== *)

Lemma Editor_eq (s t : Editor) :
  xmlContent s = xmlContent t ->
  validationMessages s = validationMessages t ->
  historyRef s = historyRef t ->
  currentIndexRef s = currentIndexRef t ->
  s = t.
Proof. destruct s, t. simpl. now intros -> -> -> ->. Qed.

Lemma undo_messages st : validationMessages (undo st) = validationMessages st.
Proof. unfold undo. now destruct (0 <? currentIndexRef st). Qed.

Lemma redo_messages st : validationMessages (redo st) = validationMessages st.
Proof. unfold redo. now destruct (_ <? _). Qed.

Lemma redo_undo_one st :
  cursor_valid st -> buffer_in_sync st -> 0 < currentIndexRef st -> redo (undo st) = st.
Proof.
  unfold cursor_valid, buffer_in_sync. intros Hv Hs Hc.
  assert (Hr : currentIndexRef (undo st) < length (historyRef (undo st)) - 1)
    by (rewrite undo_log, undo_cursor by exact Hc; lia).
  apply Editor_eq.
  - rewrite redo_buffer, undo_log, undo_cursor by assumption.
    replace (currentIndexRef st - 1 + 1) with (currentIndexRef st) by lia. now symmetry.
  - now rewrite redo_messages, undo_messages.
  - now rewrite redo_log, undo_log.
  - rewrite redo_cursor, undo_cursor by assumption. lia.
Qed.

Lemma undo_redo_one st :
  buffer_in_sync st -> currentIndexRef st < length (historyRef st) - 1 ->
  undo (redo st) = st.
Proof.
  unfold buffer_in_sync. intros Hs Hc.
  assert (Hu : 0 < currentIndexRef (redo st)) by (rewrite redo_cursor by exact Hc; lia).
  apply Editor_eq.
  - rewrite undo_buffer, redo_log, redo_cursor by assumption.
    replace (currentIndexRef st + 1 - 1) with (currentIndexRef st) by lia. now symmetry.
  - now rewrite undo_messages, redo_messages.
  - now rewrite undo_log, redo_log.
  - rewrite undo_cursor, redo_cursor by assumption. lia.
Qed.

Lemma iter_S {A} (f : A -> A) n x : Nat.iter (S n) f x = f (Nat.iter n f x).
Proof. reflexivity. Qed.

Lemma iter_succ_r {A} (f : A -> A) n x : Nat.iter (S n) f x = Nat.iter n f (f x).
Proof. induction n as [|n IH]; [reflexivity|]. simpl in *. now rewrite IH. Qed.

Lemma redo_undo_iter st n :
  cursor_valid st -> buffer_in_sync st -> n <= currentIndexRef st ->
  Nat.iter n redo (Nat.iter n undo st) = st.
Proof.
  revert st. induction n as [|n IH]; intros st Hv Hs Hn; [reflexivity|].
  rewrite (iter_succ_r undo n st).
  change (redo (Nat.iter n redo (Nat.iter n undo (undo st))) = st).
  destruct (undo_invariants st Hv Hs) as [Hv' Hs'].
  rewrite IH; auto.
  - apply redo_undo_one; auto. lia.
  - rewrite undo_cursor by lia. lia.
Qed.

Lemma iter_undo_state st k :
  k <= currentIndexRef st ->
  historyRef (Nat.iter k undo st) = historyRef st
  /\ currentIndexRef (Nat.iter k undo st) = currentIndexRef st - k
  /\ (0 < k ->
      xmlContent (Nat.iter k undo st) = nth_error (historyRef st) (currentIndexRef st - k)).
Proof.
  induction k as [|k IH]; intros Hk.
  - simpl. repeat split; [lia|]. intros H. lia.
  - destruct IH as (Hh & Hc & _); [lia|]. rewrite !iter_S.
    rewrite undo_log, undo_cursor, undo_buffer by lia.
    rewrite Hh, Hc. repeat split; [lia|]. intros _. f_equal. lia.
Qed.

(** X1. In a state whose cursor points into the log and whose buffer shows
    the snapshot under it, as long as [n] does not exceed the cursor: the
    [n]-th undo in a row leaves the cursor [n] places down and the buffer on
    the snapshot stored there, the log being untouched; and [n] redos after
    these [n] undos give back the very same state. *)
Theorem undos_then_redos (st : Editor) (n : nat) :
  cursor_valid st -> buffer_in_sync st -> n <= currentIndexRef st ->
  historyRef (Nat.iter n undo st) = historyRef st
  /\ currentIndexRef (Nat.iter n undo st) = currentIndexRef st - n
  /\ xmlContent (Nat.iter n undo st) = nth_error (historyRef st) (currentIndexRef st - n)
  /\ Nat.iter n redo (Nat.iter n undo st) = st.
Proof.
  intros Hv Hs Hn. destruct (iter_undo_state st n Hn) as (Hh & Hc & Hb).
  split; [exact Hh|]. split; [exact Hc|]. split; [|now apply redo_undo_iter].
  destruct n as [|n]; [|apply Hb; lia].
  simpl. rewrite Nat.sub_0_r. exact Hs.
Qed.

Lemma undos_then_redos_witness :
  xmlContent (Nat.iter 1 undo sample_editor) = Some (js "<a/>")
  /\ Nat.iter 1 redo (Nat.iter 1 undo sample_editor) = sample_editor.
Proof.
  destruct (undos_then_redos sample_editor 1) as (_ & _ & H3 & H4).
  - unfold cursor_valid. simpl. lia.
  - reflexivity.
  - simpl. lia.
  - split; [exact H3|exact H4].
Defined.

Lemma undo_redo_iter st n :
  buffer_in_sync st -> currentIndexRef st + n <= length (historyRef st) - 1 ->
  Nat.iter n undo (Nat.iter n redo st) = st.
Proof.
  revert st. induction n as [|n IH]; intros st Hs Hn; [reflexivity|].
  rewrite (iter_succ_r redo n st).
  change (undo (Nat.iter n undo (Nat.iter n redo (redo st))) = st).
  assert (Hc : currentIndexRef st < length (historyRef st) - 1) by lia.
  rewrite IH.
  - now apply undo_redo_one.
  - unfold buffer_in_sync. now rewrite redo_buffer, redo_log, redo_cursor.
  - rewrite redo_log, redo_cursor by exact Hc. lia.
Qed.

Lemma iter_redo_state st k :
  currentIndexRef st + k <= length (historyRef st) - 1 ->
  historyRef (Nat.iter k redo st) = historyRef st
  /\ currentIndexRef (Nat.iter k redo st) = currentIndexRef st + k
  /\ (0 < k ->
      xmlContent (Nat.iter k redo st) = nth_error (historyRef st) (currentIndexRef st + k)).
Proof.
  induction k as [|k IH]; intros Hk.
  - simpl. repeat split; [lia|]. intros H. lia.
  - destruct IH as (Hh & Hc & _); [lia|]. rewrite !iter_S.
    rewrite redo_log, redo_cursor, redo_buffer by (rewrite Hh, Hc; lia).
    rewrite Hh, Hc. repeat split; [lia|]. intros _. f_equal. lia.
Qed.

(** X2. In a state whose buffer shows the snapshot under the cursor, as
    long as [n] snapshots lie after the cursor: the [n]-th redo in a row
    leaves the cursor [n] places up and the buffer on the snapshot stored
    there, the log being untouched; and [n] undos after these [n] redos give
    back the very same state. *)
Theorem redos_then_undos (st : Editor) (n : nat) :
  buffer_in_sync st -> currentIndexRef st + n <= length (historyRef st) - 1 ->
  historyRef (Nat.iter n redo st) = historyRef st
  /\ currentIndexRef (Nat.iter n redo st) = currentIndexRef st + n
  /\ xmlContent (Nat.iter n redo st) = nth_error (historyRef st) (currentIndexRef st + n)
  /\ Nat.iter n undo (Nat.iter n redo st) = st.
Proof.
  intros Hs Hn. destruct (iter_redo_state st n Hn) as (Hh & Hc & Hb).
  split; [exact Hh|]. split; [exact Hc|]. split; [|now apply undo_redo_iter].
  destruct n as [|n]; [|apply Hb; lia].
  simpl. rewrite Nat.add_0_r. exact Hs.
Qed.

Lemma redos_then_undos_witness :
  xmlContent (Nat.iter 1 redo sample_editor) = Some (js "<c/>")
  /\ Nat.iter 1 undo (Nat.iter 1 redo sample_editor) = sample_editor.
Proof.
  destruct (redos_then_undos sample_editor 1) as (_ & _ & H3 & H4).
  - reflexivity.
  - simpl. lia.
  - split; [exact H3|exact H4].
Defined.

Lemma nth_error_rev_lt {A} n (l : list A) :
  n < length l -> nth_error (rev l) n = nth_error l (length l - S n).
Proof.
  intros H. rewrite nth_error_rev. apply Nat.ltb_lt in H. now rewrite H.
Qed.

Lemma edits_snoc l x st : edits (l ++ [x]) st = handleContentChange x (edits l st).
Proof. unfold edits. now rewrite fold_left_app. Qed.

Lemma handleContentChange_state x st :
  historyRef (handleContentChange x st)
  = firstn (currentIndexRef st + 1) (historyRef st) ++ [x]
  /\ currentIndexRef (handleContentChange x st)
     = length (firstn (currentIndexRef st + 1) (historyRef st))
  /\ xmlContent (handleContentChange x st) = Some x
  /\ validationMessages (handleContentChange x st) = validationMessages st.
Proof.
  unfold handleContentChange. rewrite addToHistory_log, addToHistory_cursor.
  repeat split.
Qed.

Lemma edits_log l st :
  cursor_valid st -> l <> [] ->
  historyRef (edits l st) = firstn (currentIndexRef st + 1) (historyRef st) ++ l
  /\ currentIndexRef (edits l st) = currentIndexRef st + length l
  /\ xmlContent (edits l st) = nth_error (rev l) 0.
Proof.
  unfold cursor_valid. intros Hv.
  assert (Hp : length (firstn (currentIndexRef st + 1) (historyRef st))
               = currentIndexRef st + 1) by (rewrite length_firstn; lia).
  induction l as [|x l IH] using rev_ind; [congruence|]. intros _.
  rewrite edits_snoc, rev_app_distr, length_app.
  destruct (handleContentChange_state x (edits l st)) as (Hh & Hc & Hx & _).
  rewrite Hh, Hc, Hx. clear Hh Hc Hx.
  destruct l as [|y l].
  - change (edits [] st) with st. rewrite Hp. repeat split.
  - destruct IH as (Hh & Hc & _); [discriminate|]. rewrite Hh, Hc.
    rewrite firstn_all2 by (rewrite length_app, Hp; lia).
    rewrite <- app_assoc. repeat split. rewrite length_app, Hp. simpl length. lia.
Qed.

(** X3. After a run of edits made in a state whose cursor points into the
    log and whose buffer shows the snapshot under it: the log is its part up
    to the old cursor followed by all the edits, equal or not to the text
    they replace; the buffer shows the last edit; each further undo shows the edit before; as many undos as
    there were edits bring back the buffer and the cursor of the start; and
    as many redos then bring back the state reached by the edits. *)
Theorem edits_round_trip (st : Editor) (l : list js_string) :
  cursor_valid st -> buffer_in_sync st ->
  (l <> [] ->
   historyRef (edits l st) = firstn (currentIndexRef st + 1) (historyRef st) ++ l)
  /\ (forall k, k < length l ->
     xmlContent (Nat.iter k undo (edits l st)) = nth_error (rev l) k)
  /\ xmlContent (Nat.iter (length l) undo (edits l st)) = xmlContent st
  /\ currentIndexRef (Nat.iter (length l) undo (edits l st)) = currentIndexRef st
  /\ Nat.iter (length l) redo (Nat.iter (length l) undo (edits l st)) = edits l st.
Proof.
  intros Hv Hs. destruct l as [|x0 l0].
  { split; [congruence|]. repeat split. intros k Hk. simpl in Hk. lia. }
  set (l := x0 :: l0) in *.
  destruct (edits_log l st Hv) as (Hh & Hc & Hx); [discriminate|].
  assert (Hp : length (firstn (currentIndexRef st + 1) (historyRef st))
               = currentIndexRef st + 1)
    by (unfold cursor_valid in Hv; rewrite length_firstn; lia).
  assert (Hl : 1 <= length l) by (subst l; simpl; lia).
  assert (Hv' : cursor_valid (edits l st)).
  { unfold cursor_valid. rewrite Hh, Hc, length_app, Hp. lia. }
  assert (Hs' : buffer_in_sync (edits l st)).
  { unfold buffer_in_sync. rewrite Hx, Hh, Hc.
    rewrite nth_error_app2 by (rewrite Hp; lia). rewrite Hp.
    rewrite (nth_error_rev_lt 0 l) by lia. f_equal. lia. }
  split; [intros _; exact Hh|]. split; [|split; [|split]].
  - intros k Hk. destruct k as [|k]; [exact Hx|].
    destruct (iter_undo_state (edits l st) (S k)) as (_ & _ & Hb); [lia|].
    rewrite Hb by lia. rewrite Hh, Hc.
    rewrite nth_error_app2 by (rewrite Hp; lia). rewrite Hp.
    rewrite (nth_error_rev_lt (S k) l) by exact Hk. f_equal. lia.
  - destruct (iter_undo_state (edits l st) (length l)) as (_ & _ & Hb); [lia|].
    rewrite Hb by lia. rewrite Hh, Hc.
    replace (currentIndexRef st + length l - length l) with (currentIndexRef st) by lia.
    rewrite nth_error_app1 by (rewrite Hp; lia). rewrite nth_error_firstn.
    replace (currentIndexRef st <? currentIndexRef st + 1) with true
      by (symmetry; apply Nat.ltb_lt; lia).
    now symmetry.
  - destruct (iter_undo_state (edits l st) (length l)) as (_ & Hi & _); [lia|].
    rewrite Hi, Hc. lia.
  - apply redo_undo_iter; auto. lia.
Qed.

Lemma edits_round_trip_witness :
  xmlContent (Nat.iter 2 undo (edits [js "<b/>"; js "<c/>"] (initial (js "<a/>"))))
  = Some (js "<a/>")
  /\ Nat.iter 2 redo (Nat.iter 2 undo (edits [js "<b/>"; js "<c/>"] (initial (js "<a/>"))))
     = edits [js "<b/>"; js "<c/>"] (initial (js "<a/>")).
Proof.
  destruct (edits_round_trip (initial (js "<a/>")) [js "<b/>"; js "<c/>"])
    as (_ & _ & H2 & _ & H4).
  - unfold cursor_valid. simpl. lia.
  - reflexivity.
  - split; [exact H2|exact H4].
Defined.

(** ** What every session keeps *)

Lemma setValidationMessages_invariants ms st doc :
  cursor_valid st /\ buffer_in_sync st /\ hd_error (historyRef st) = Some doc ->
  cursor_valid (setValidationMessages ms st)
  /\ buffer_in_sync (setValidationMessages ms st)
  /\ hd_error (historyRef (setValidationMessages ms st)) = Some doc.
Proof. intros H. exact H. Qed.

Lemma hd_error_firstn_snoc {A} (h : list A) i x doc :
  hd_error h = Some doc -> hd_error (firstn (i + 1) h ++ [x]) = Some doc.
Proof.
  destruct h as [|a h]; [discriminate|]. rewrite Nat.add_1_r. simpl. auto.
Qed.

Lemma record_invariants x st doc :
  hd_error (historyRef st) = Some doc ->
  cursor_valid (addToHistory x (setXmlContent (Some x) st))
  /\ buffer_in_sync (addToHistory x (setXmlContent (Some x) st))
  /\ hd_error (historyRef (addToHistory x (setXmlContent (Some x) st))) = Some doc.
Proof.
  intros Hd. destruct (handleContentChange_invariants x st) as [Hv Hs].
  split; [exact Hv|]. split; [exact Hs|].
  rewrite addToHistory_log. now apply hd_error_firstn_snoc.
Qed.

Lemma handle_invariants P a st doc :
  cursor_valid st /\ buffer_in_sync st /\ hd_error (historyRef st) = Some doc ->
  cursor_valid (handle P a st)
  /\ buffer_in_sync (handle P a st)
  /\ hd_error (historyRef (handle P a st)) = Some doc.
Proof.
  intros (Hv & Hs & Hd). destruct a; cbn [handle].
  - now apply record_invariants.
  - destruct (undo_invariants st Hv Hs) as [Hv' Hs']. now rewrite undo_log.
  - destruct (redo_invariants st Hv Hs) as [Hv' Hs']. now rewrite redo_log.
  - unfold formatXML. destruct (formatXML_try P (xmlContent st)) as [y|m].
    + apply setValidationMessages_invariants. now apply record_invariants.
    + now apply setValidationMessages_invariants.
  - unfold validateXMLSyntax.
    destruct (validateXMLSyntax_try P (xmlContent st)) as [[ms b]|m];
      now apply setValidationMessages_invariants.
  - now apply setValidationMessages_invariants.
  - now apply setValidationMessages_invariants.
Qed.

(** X4. Whatever the platform, the initial document and the sequence of
    edits and clicks: the cursor points into the log, the buffer holds a
    string, which is the snapshot under the cursor, and the first snapshot
    of the log is still the initial document. *)
Theorem session_invariants (P : Platform) (doc : js_string) (actions : list Action) :
  cursor_valid (run P actions (initial doc))
  /\ buffer_in_sync (run P actions (initial doc))
  /\ hd_error (historyRef (run P actions (initial doc))) = Some doc
  /\ exists s, xmlContent (run P actions (initial doc)) = Some s.
Proof.
  assert (H : cursor_valid (run P actions (initial doc))
              /\ buffer_in_sync (run P actions (initial doc))
              /\ hd_error (historyRef (run P actions (initial doc))) = Some doc).
  { induction actions as [|a actions IH] using rev_ind.
    - destruct (initial_invariants doc). now repeat split.
    - unfold run in *. rewrite fold_left_app. simpl. now apply handle_invariants. }
  destruct H as (Hv & Hs & Hd). repeat split; auto.
  unfold cursor_valid, buffer_in_sync in *. rewrite Hs.
  destruct (nth_error _ _) eqn:E; [eauto|]. apply nth_error_None in E. lia.
Qed.

(** ** Formatting and the log *)

Lemma formatXML_try_Normal P content y :
  formatXML_try P content = Normal y ->
  exists d s,
    parseFromString P (ToString content) = Normal d
    /\ docGetElementsByTagName P d (js "parsererror") = []
    /\ serializeToString P d = Normal s
    /\ y = normalize s.
Proof.
  unfold formatXML_try, bind. intros H.
  destruct (parseFromString P (ToString content)) as [d|] eqn:Hp; [|discriminate].
  destruct (docGetElementsByTagName P d (js "parsererror")) eqn:E; [|discriminate].
  simpl in H. destruct (serializeToString P d) as [s|] eqn:Hs; [|discriminate].
  injection H as <-. exists d, s. repeat split; assumption.
Qed.

(** X5. When [formatXML] succeeds in a state whose cursor points into the
    log and whose buffer shows the snapshot under it: the formatted text is
    in the buffer and is the last snapshot of the log, right after the old
    cursor; nothing is left to redo; one undo brings back the text and the
    cursor of before, and one redo after it the formatted state. *)
Theorem formatXML_is_one_undoable_step (P : Platform) (st : Editor) (y : js_string) :
  formatXML_try P (xmlContent st) = Normal y ->
  cursor_valid st -> buffer_in_sync st ->
  xmlContent (formatXML P st) = Some y
  /\ historyRef (formatXML P st) = firstn (currentIndexRef st + 1) (historyRef st) ++ [y]
  /\ currentIndexRef (formatXML P st) = currentIndexRef st + 1
  /\ redo (formatXML P st) = formatXML P st
  /\ xmlContent (undo (formatXML P st)) = xmlContent st
  /\ currentIndexRef (undo (formatXML P st)) = currentIndexRef st
  /\ redo (undo (formatXML P st)) = formatXML P st.
Proof.
  intros Hy Hv Hs. unfold cursor_valid, buffer_in_sync in *.
  assert (Hp : length (firstn (currentIndexRef st + 1) (historyRef st))
               = currentIndexRef st + 1) by (rewrite length_firstn; lia).
  assert (E : formatXML P st
              = setValidationMessages [ok msg_formatted] (handleContentChange y st))
    by (unfold formatXML; now rewrite Hy).
  destruct (handleContentChange_state y st) as (Hh & Hc & Hx & _).
  assert (Hh' : historyRef (formatXML P st)
                = firstn (currentIndexRef st + 1) (historyRef st) ++ [y])
    by (rewrite E; exact Hh).
  assert (Hc' : currentIndexRef (formatXML P st) = currentIndexRef st + 1)
    by (rewrite E; cbn [currentIndexRef setValidationMessages]; now rewrite Hc, Hp).
  assert (Hx' : xmlContent (formatXML P st) = Some y) by (rewrite E; exact Hx).
  assert (Hv' : cursor_valid (formatXML P st)).
  { unfold cursor_valid. rewrite Hh', Hc', length_app, Hp. simpl. lia. }
  assert (Hs' : buffer_in_sync (formatXML P st)).
  { unfold buffer_in_sync. rewrite Hx', Hh', Hc'.
    rewrite nth_error_app2 by (rewrite Hp; lia). rewrite Hp, Nat.sub_diag. reflexivity. }
  split; [exact Hx'|]. split; [exact Hh'|]. split; [exact Hc'|].
  split; [apply redo_at_end; rewrite Hh', Hc', length_app, Hp; simpl; lia|].
  split; [|split].
  - rewrite undo_buffer by lia. rewrite Hh', Hc'.
    replace (currentIndexRef st + 1 - 1) with (currentIndexRef st) by lia.
    rewrite nth_error_app1 by (rewrite Hp; lia). rewrite nth_error_firstn.
    replace (currentIndexRef st <? currentIndexRef st + 1) with true
      by (symmetry; apply Nat.ltb_lt; lia).
    now symmetry.
  - rewrite undo_cursor by lia. lia.
  - apply redo_undo_one; auto. lia.
Qed.

Lemma formatXML_is_one_undoable_step_witness :
  xmlContent (undo (formatXML fragment_platform (initial (js "<a>x  y</a>"))))
  = Some (js "<a>x  y</a>")
  /\ currentIndexRef (formatXML fragment_platform (initial (js "<a>x  y</a>"))) = 1.
Proof.
  destruct (formatXML_is_one_undoable_step fragment_platform
              (initial (js "<a>x  y</a>")) (js "<a>x  y</a>"))
    as (_ & _ & H3 & _ & H5 & _).
  - reflexivity.
  - unfold cursor_valid. simpl. lia.
  - reflexivity.
  - split; [exact H5|exact H3].
Defined.

(** ** Clicks without effect *)

Lemma Editor_cursor_neq s t : currentIndexRef s <> currentIndexRef t -> s <> t.
Proof. intros H E. apply H. now rewrite E. Qed.

(** X6. [undo] leaves the whole state as it is exactly when the cursor is
    at the first snapshot; and in a state whose cursor points into the log,
    [redo] leaves the whole state as it is exactly when the cursor is at the
    last snapshot. *)
Theorem undo_redo_no_effect_iff (st : Editor) :
  (undo st = st <-> currentIndexRef st = 0)
  /\ (cursor_valid st ->
      (redo st = st <-> currentIndexRef st = length (historyRef st) - 1)).
Proof.
  split.
  - split; [|apply undo_at_start].
    intros H. destruct (currentIndexRef st) as [|i] eqn:E; [reflexivity|].
    exfalso. revert H. apply Editor_cursor_neq. rewrite undo_cursor by lia. lia.
  - unfold cursor_valid. intros Hv. split.
    + intros H.
      destruct (Nat.eq_dec (currentIndexRef st) (length (historyRef st) - 1)) as [E|E];
        [exact E|].
      exfalso. revert H. apply Editor_cursor_neq.
      rewrite redo_cursor by lia. lia.
    + intros H. apply redo_at_end. lia.
Qed.

Lemma undo_redo_no_effect_iff_witness :
  redo sample_editor = sample_editor
  <-> currentIndexRef sample_editor = length (historyRef sample_editor) - 1.
Proof.
  destruct (undo_redo_no_effect_iff sample_editor) as [_ H].
  apply H. unfold cursor_valid. simpl. lia.
Defined.

(* ===================================================================== *)
(** * Further properties of the validators *)
(* ===================================================================== *)

(** ** The syntax check and the formatter *)

Lemma or_else_nonempty a b : b <> [] -> or_else a b <> [].
Proof. destruct a; simpl; [auto|discriminate]. Qed.

Lemma validateXMLSyntax_cases P st :
  (parse_failed P (ToString (xmlContent st)) = false
   /\ validateXMLSyntax P st = (setValidationMessages [ok msg_syntax_valid] st, true))
  \/ (parse_failed P (ToString (xmlContent st)) = true
      /\ exists m, m <> []
           /\ validateXMLSyntax P st = (setValidationMessages [err m] st, false)).
Proof.
  unfold validateXMLSyntax, validateXMLSyntax_try, parse_failed, bind.
  destruct (parseFromString P (ToString (xmlContent st))) as [d|m].
  - destruct (docGetElementsByTagName P d (js "parsererror")) as [|e l]; simpl.
    + now left.
    + right. split; [reflexivity|]. eexists. split; [|reflexivity].
      apply or_else_nonempty. discriminate.
  - right. split; [reflexivity|]. eexists. split; [|reflexivity]. discriminate.
Qed.

(** X7. [validateXMLSyntax] changes nothing but the displayed messages. It
    answers [true], with the one success message, exactly when the parse did
    not fail; otherwise it answers [false] with one error whose text is not
    empty. When it answers [false], [formatXML] is refused and changes
    nothing but the messages either; when it answers [true], [formatXML]
    formats unless the serialiser throws. *)
Theorem validateXMLSyntax_verdict (P : Platform) (st : Editor) :
  snd (validateXMLSyntax P st) = negb (parse_failed P (ToString (xmlContent st)))
  /\ xmlContent (fst (validateXMLSyntax P st)) = xmlContent st
  /\ historyRef (fst (validateXMLSyntax P st)) = historyRef st
  /\ currentIndexRef (fst (validateXMLSyntax P st)) = currentIndexRef st
  /\ (snd (validateXMLSyntax P st) = true ->
      validationMessages (fst (validateXMLSyntax P st)) = [ok msg_syntax_valid]
      /\ ((exists y, formatXML_try P (xmlContent st) = Normal y)
          \/ exists d m, parseFromString P (ToString (xmlContent st)) = Normal d
                         /\ serializeToString P d = Throw m))
  /\ (snd (validateXMLSyntax P st) = false ->
      (exists m, m <> [] /\ validationMessages (fst (validateXMLSyntax P st)) = [err m])
      /\ exists m, formatXML P st = setValidationMessages [err m] st).
Proof.
  destruct (validateXMLSyntax_cases P st) as [[Hf ->]|[Hf (m & Hm & ->)]];
    rewrite Hf; simpl.
  - repeat split; try discriminate.
    unfold parse_failed in Hf. unfold formatXML_try, bind.
    destruct (parseFromString P (ToString (xmlContent st))) as [d|] eqn:Hp; [|discriminate].
    destruct (docGetElementsByTagName P d (js "parsererror")); [|discriminate]. simpl.
    destruct (serializeToString P d) as [s|m] eqn:Hs; [left; eauto|right; eauto].
  - repeat split; try discriminate.
    + now exists m.
    + destruct (parse_failed_throws P _ Hf) as [m' Hm']. exists m'.
      apply formatXML_thrown. rewrite <- Hm'. reflexivity.
Qed.

Lemma validateXMLSyntax_verdict_witness :
  exists m, formatXML sample_platform broken_editor
            = setValidationMessages [err m] broken_editor.
Proof.
  destruct (validateXMLSyntax_verdict sample_platform broken_editor)
    as (_ & _ & _ & _ & _ & H).
  destruct H as [_ H]; [reflexivity|exact H].
Defined.

(** ** What a success means *)

Lemma descendant_of_trans a b c :
  descendant_of a b -> descendant_of b c -> descendant_of a c.
Proof.
  intros Hab Hbc. induction Hbc as [b c Hin|b c' c Hin _ IH].
  - now apply descendant_deeper with b.
  - apply descendant_deeper with c'; auto.
Qed.

Lemma first_named_descendant e name k :
  first_named e name = Some k -> descendant_of k e /\ tagName k = name.
Proof.
  intros H. apply first_named_iff in H. destruct H as (b & a & H & Hn & _).
  split; [|exact Hn]. apply In_descendants. rewrite H. apply in_elt.
Qed.

Lemma missing_required_nil tei :
  missing_required tei = [] ->
  forall name, In name required_names -> has_descendant tei name.
Proof.
  unfold required_names. intros H name Hname. revert H. rule_cases tei; intros H; try discriminate H.
  assert (D1 : forall n k, first_named tei n = Some k -> has_descendant tei n).
  { intros n k Hk. apply first_named_descendant in Hk. destruct Hk. now exists k. }
  assert (Hfd1 : descendant_of fd tei).
  { apply first_named_descendant in Hh, Hfd. destruct Hh, Hfd.
    now apply descendant_of_trans with h. }
  assert (D2 : forall n k, first_named fd n = Some k -> has_descendant tei n).
  { intros n k Hk. apply first_named_descendant in Hk. destruct Hk as [Hk Hn].
    exists k. split; [|exact Hn]. now apply descendant_of_trans with fd. }
  assert (Dts : descendant_of ts tei).
  { apply first_named_descendant in Hts. destruct Hts.
    now apply descendant_of_trans with fd. }
  simpl in Hname.
  destruct Hname as [<-|[<-|[<-|[<-|[<-|[<-|[<-|[<-|[]]]]]]]]].
  - eapply D1; eauto.
  - eapply D1; eauto.
  - exists fd. split; [exact Hfd1|]. apply first_named_descendant in Hfd. tauto.
  - eapply D2; eauto.
  - eapply D2; eauto.
  - eapply D2; eauto.
  - apply first_named_descendant in Hti. destruct Hti as [Hti Hn].
    eexists. split; [|exact Hn]. now apply descendant_of_trans with ts.
  - apply first_named_descendant in Hbo, Ht. destruct Hbo as [Hbo Hn], Ht.
    eexists. split; [|exact Hn]. now apply descendant_of_trans with t.
Qed.

Lemma conclude_ok_nil ms : all_errors ms -> conclude ms = [ok msg_conforms] -> ms = [].
Proof.
  destruct ms as [|m ms]; [reflexivity|]. simpl. intros Ha H.
  injection H as -> ->. inversion Ha as [|? ? Hm _]. discriminate Hm.
Qed.

Lemma namespace_ok_true tei : namespace_ok tei = true -> namespaceURI tei = Some TEI_NS.
Proof.
  unfold namespace_ok. destruct (namespaceURI tei) as [ns|]; [|discriminate].
  intros H. apply js_eqb_true in H. now subst.
Qed.

Lemma checkStructure_ok root :
  checkStructure root = [ok msg_conforms] ->
  exists tei, root = Some tei /\ tagName tei = js "TEI"
              /\ namespace_ok tei = true /\ missing_required tei = [].
Proof.
  destruct root as [tei|]; [|discriminate].
  destruct (js_eqb_spec (tagName tei) (js "TEI")) as [Ht|Ht].
  - rewrite (checkStructure_root_ok _ Ht). intros H.
    apply conclude_ok_nil in H; [|apply all_errors_rules].
    apply app_eq_nil in H. destruct H as [Hn Hm]. exists tei. repeat split; auto.
    + now destruct (namespace_ok tei).
    + now destruct (missing_required tei).
  - destruct (checkStructure_bad_root (Some tei)) as [-> _]; [right; eauto|discriminate].
Qed.

(** X8. When [validateTEI] of [tei-editor.tsx] displays the success
    message, the parser returned a document whose root is named [TEI], is in
    the TEI namespace, and has below it, at some depth, an element of each of
    the eight required names. *)
Theorem validateTEI_success_sound (P : Platform) (content : js_value) :
  validateTEI_messages P content = [ok msg_conforms] ->
  exists d tei,
    parseFromString P (ToString content) = Normal d
    /\ documentElement P d = Some tei
    /\ tagName tei = js "TEI"
    /\ namespaceURI tei = Some TEI_NS
    /\ forall name, In name required_names -> has_descendant tei name.
Proof.
  unfold validateTEI_messages, validateTEI_try, bind.
  destruct (parseFromString P (ToString content)) as [d|m]; [|discriminate].
  intros H. apply checkStructure_ok in H. destruct H as (tei & Hd & Ht & Hn & Hm).
  exists d, tei. repeat split; auto.
  - now apply namespace_ok_true.
  - now apply missing_required_nil.
Qed.

Lemma validateTEI_success_sound_witness :
  exists d tei,
    parseFromString sample_platform (ToString (text_of conforming_root)) = Normal d
    /\ documentElement sample_platform d = Some tei
    /\ tagName tei = js "TEI"
    /\ namespaceURI tei = Some TEI_NS
    /\ forall name, In name required_names -> has_descendant tei name.
Proof.
  exact (validateTEI_success_sound sample_platform (text_of conforming_root) eq_refl).
Defined.

(** ** Errors that exclude each other *)

Lemma lacks_first_named e name k : lacks e name = true -> first_named e name <> Some k.
Proof. unfold lacks. intros H E. rewrite E in H. discriminate. Qed.

Lemma missing_required_exclusive tei :
  (In msg_teiHeader (missing_required tei) ->
   ~ In msg_fileDesc (missing_required tei)
   /\ forall x, In x below_fileDesc_msgs -> ~ In x (missing_required tei))
  /\ (In msg_fileDesc (missing_required tei) ->
      forall x, In x below_fileDesc_msgs -> ~ In x (missing_required tei))
  /\ (In (msg_in_fileDesc (js "titleStmt")) (missing_required tei) ->
      ~ In msg_title (missing_required tei))
  /\ (In msg_text (missing_required tei) -> ~ In msg_body (missing_required tei)).
Proof.
  assert (Hbelow : forall x, In x below_fileDesc_msgs -> In x (missing_required tei) ->
            exists h fd, first_named tei (js "teiHeader") = Some h
                         /\ first_named h (js "fileDesc") = Some fd).
  { intros x Hx Hin. unfold below_fileDesc_msgs in Hx. simpl in Hx.
    destruct Hx as [<-|[<-|[<-|[<-|[]]]]].
    - apply in_fileDesc_rule in Hin; [|now left].
      destruct Hin as (h & fd & ? & ? & _). eauto.
    - apply in_fileDesc_rule in Hin; [|right; now left].
      destruct Hin as (h & fd & ? & ? & _). eauto.
    - apply in_fileDesc_rule in Hin; [|right; right; now left].
      destruct Hin as (h & fd & ? & ? & _). eauto.
    - apply title_rule in Hin. destruct Hin as (h & fd & ts & ? & ? & _). eauto. }
  split; [|split; [|split]].
  - intros H. apply teiHeader_rule in H. split.
    + intros H'. apply fileDesc_rule in H'. destruct H' as (h & Hh & _).
      now apply (lacks_first_named _ _ h) in H.
    + intros x Hx Hin. destruct (Hbelow x Hx Hin) as (h & fd & Hh & _).
      now apply (lacks_first_named _ _ h) in H.
  - intros H x Hx Hin. apply fileDesc_rule in H. destruct H as (h & Hh & Hl).
    destruct (Hbelow x Hx Hin) as (h' & fd & Hh' & Hfd).
    rewrite Hh in Hh'. injection Hh' as <-.
    now apply (lacks_first_named _ _ fd) in Hl.
  - intros H H'. apply in_fileDesc_rule in H; [|now left].
    destruct H as (h & fd & Hh & Hfd & Hl).
    apply title_rule in H'. destruct H' as (h' & fd' & ts & Hh' & Hfd' & Hts & _).
    rewrite Hh in Hh'. injection Hh' as <-. rewrite Hfd in Hfd'. injection Hfd' as <-.
    now apply (lacks_first_named _ _ ts) in Hl.
  - intros H H'. apply text_rule in H. apply body_rule in H'.
    destruct H' as (t & Ht & _). now apply (lacks_first_named _ _ t) in H.
Qed.

Lemma missing_required_length tei : length (missing_required tei) <= 4.
Proof. rule_cases tei; simpl; lia. Qed.

Lemma startsWith_app p m : startsWith p (p ++ m) = true.
Proof.
  induction p as [|c p IH]; [reflexivity|]. simpl. now rewrite N.eqb_refl.
Qed.

Lemma validateTEI_messages_shape P content :
  (exists m, validateTEI_messages P content = [m]
             /\ Reduced.validateTEI_messages P content = [m]
             /\ (type m = error /\ startsWith msg_tei_prefix (message m) = true
                 \/ m = err msg_root))
  \/ (exists d tei,
        parseFromString P (ToString content) = Normal d
        /\ documentElement P d = Some tei
        /\ tagName tei = js "TEI"
        /\ validateTEI_messages P content
           = conclude ((if namespace_ok tei then [] else [err msg_namespace])
                       ++ map err (missing_required tei))
        /\ Reduced.validateTEI_messages P content
           = conclude ((if namespace_ok tei then [] else [err msg_namespace])
                       ++ map err (missing_reduced tei))).
Proof.
  destruct (parseFromString P (ToString content)) as [d|m] eqn:Hp.
  - destruct (validateTEI_messages_parsed P content d Hp) as [-> ->].
    destruct (documentElement P d) as [tei|] eqn:Hd.
    + destruct (js_eqb_spec (tagName tei) (js "TEI")) as [Ht|Ht].
      * right. exists d, tei. repeat split; auto.
        -- now apply checkStructure_root_ok.
        -- now apply reduced_checkStructure_root_ok.
      * left. destruct (checkStructure_bad_root (Some tei)) as [-> ->]; [right; eauto|].
        exists (err msg_root). auto.
    + left. exists (err msg_root). auto.
  - left. destruct (validateTEI_messages_thrown P content m Hp) as [-> ->].
    eexists. repeat split. left. split; [reflexivity|]. apply startsWith_app.
Qed.

Lemma in_rules_required tei x :
  x <> msg_namespace ->
  In (err x) (conclude ((if namespace_ok tei then [] else [err msg_namespace])
                        ++ map err (missing_required tei)))
  <-> In x (missing_required tei).
Proof.
  intros Hx. rewrite in_conclude_err, in_app_iff, in_map_err.
  destruct (namespace_ok tei); simpl; [tauto|].
  split; [|tauto]. intros [[Hn|[]]|Hn]; [|exact Hn]. inversion Hn. congruence.
Qed.

Lemma below_fileDesc_not_namespace x : In x below_fileDesc_msgs -> x <> msg_namespace.
Proof.
  unfold below_fileDesc_msgs. simpl.
  intros [<-|[<-|[<-|[<-|[]]]]]; vm_compute; discriminate.
Qed.

Lemma single_exclusive (m : ValidationMessage) a b :
  a <> b -> In (err a) [m] -> ~ In (err b) [m].
Proof.
  intros Hab [->|[]] [H|[]]. inversion H. congruence.
Qed.

(** X9. [validateTEI] of [tei-editor.tsx] never displays more than five
    messages, and never an error about an element together with an error
    about what that element must hold: the error for [teiHeader] excludes
    those for [fileDesc] and for what [fileDesc] holds, the error for
    [fileDesc] excludes the latter, the error for [titleStmt] excludes the
    one for [title], and the error for [text] excludes the one for [body]. *)
Theorem validateTEI_errors_do_not_cascade (P : Platform) (content : js_value) :
  length (validateTEI_messages P content) <= 5
  /\ (In (err msg_teiHeader) (validateTEI_messages P content) ->
      ~ In (err msg_fileDesc) (validateTEI_messages P content)
      /\ forall x, In x below_fileDesc_msgs ->
                   ~ In (err x) (validateTEI_messages P content))
  /\ (In (err msg_fileDesc) (validateTEI_messages P content) ->
      forall x, In x below_fileDesc_msgs ->
                ~ In (err x) (validateTEI_messages P content))
  /\ (In (err (msg_in_fileDesc (js "titleStmt"))) (validateTEI_messages P content) ->
      ~ In (err msg_title) (validateTEI_messages P content))
  /\ (In (err msg_text) (validateTEI_messages P content) ->
      ~ In (err msg_body) (validateTEI_messages P content)).
Proof.
  destruct (validateTEI_messages_shape P content)
    as [(m & -> & _ & _)|(d & tei & _ & _ & _ & -> & _)].
  - split; [simpl; lia|]. split; [|split; [|split]].
    + intros H. split; [revert H; apply single_exclusive; vm_compute; discriminate|].
      intros x Hx. revert H. apply single_exclusive.
      unfold below_fileDesc_msgs in Hx. simpl in Hx.
      destruct Hx as [<-|[<-|[<-|[<-|[]]]]]; vm_compute; discriminate.
    + intros H x Hx. revert H. apply single_exclusive.
      unfold below_fileDesc_msgs in Hx. simpl in Hx.
      destruct Hx as [<-|[<-|[<-|[<-|[]]]]]; vm_compute; discriminate.
    + apply single_exclusive. vm_compute. discriminate.
    + apply single_exclusive. vm_compute. discriminate.
  - destruct (missing_required_exclusive tei) as (E1 & E2 & E3 & E4).
    split; [|split; [|split; [|split]]].
    + pose proof (missing_required_length tei) as Hl.
      destruct (namespace_ok tei); destruct (missing_required tei) as [|x l];
        simpl in *; rewrite ?length_map; lia.
    + rewrite !in_rules_required by (vm_compute; discriminate). intros H.
      destruct (E1 H) as [F1 F2]. split; [exact F1|]. intros x Hx.
      rewrite in_rules_required by now apply below_fileDesc_not_namespace. auto.
    + rewrite !in_rules_required by (vm_compute; discriminate). intros H x Hx.
      rewrite in_rules_required by now apply below_fileDesc_not_namespace. auto.
    + rewrite !in_rules_required by (vm_compute; discriminate). exact E3.
    + rewrite !in_rules_required by (vm_compute; discriminate). exact E4.
Qed.

Lemma validateTEI_errors_do_not_cascade_witness :
  ~ In (err msg_fileDesc) (validateTEI_messages sample_platform (text_of bare_root_no_ns)).
Proof.
  destruct (validateTEI_errors_do_not_cascade sample_platform (text_of bare_root_no_ns))
    as (_ & H & _).
  destruct H as [H _]; [|exact H]. vm_compute. tauto.
Defined.

(** ** The two checkers side by side *)

Lemma in_rules_reduced tei x :
  x <> msg_namespace ->
  In (err x) (conclude ((if namespace_ok tei then [] else [err msg_namespace])
                        ++ map err (missing_reduced tei)))
  <-> In x (missing_reduced tei).
Proof.
  intros Hx. rewrite in_conclude_err, in_app_iff, in_map_err.
  destruct (namespace_ok tei); simpl; [tauto|].
  split; [|tauto]. intros [[Hn|[]]|Hn]; [|exact Hn]. inversion Hn. congruence.
Qed.

Lemma in_rules_namespace tei l :
  ~ In msg_namespace l ->
  In (err msg_namespace)
     (conclude ((if namespace_ok tei then [] else [err msg_namespace]) ++ map err l))
  <-> namespace_ok tei = false.
Proof.
  intros Hl. rewrite in_conclude_err, in_app_iff, in_map_err.
  destruct (namespace_ok tei); simpl; intuition discriminate.
Qed.

Lemma missing_reduced_iff tei :
  In msg_header_or_text (missing_reduced tei)
  <-> In msg_teiHeader (missing_required tei) \/ In msg_text (missing_required tei).
Proof.
  rewrite teiHeader_rule, text_rule. unfold missing_reduced.
  destruct (lacks tei (js "teiHeader")), (lacks tei (js "text")); simpl;
    intuition discriminate.
Qed.

Lemma missing_reduced_length tei :
  length (missing_reduced tei) <= length (missing_required tei).
Proof.
  unfold missing_reduced, missing_required.
  destruct (lacks tei (js "teiHeader")), (lacks tei (js "text")); simpl; lia.
Qed.

Lemma not_caught_single x (m : ValidationMessage) :
  In (err x) walk_msgs ->
  type m = error /\ startsWith msg_tei_prefix (message m) = true \/ m = err msg_root ->
  x <> msg_root ->
  ~ In (err x) [m].
Proof.
  intros Hw Hm Hx [->|[]]. destruct Hm as [[_ Hm]|Hm].
  - apply walk_msgs_not_caught in Hw. simpl in *. congruence.
  - inversion Hm. congruence.
Qed.

(** X10. On the same buffer, the reduced checker of [part_000] and the
    checker of [tei-editor.tsx] agree on the root error and on the namespace
    error; the reduced one displays its combined error exactly when the other
    displays the error for [teiHeader] or the one for [text]; it succeeds
    whenever the other succeeds, and never displays more messages. *)
Theorem reduced_checker_is_coarser (P : Platform) (content : js_value) :
  (In (err msg_root) (Reduced.validateTEI_messages P content)
   <-> In (err msg_root) (validateTEI_messages P content))
  /\ (In (err msg_namespace) (Reduced.validateTEI_messages P content)
      <-> In (err msg_namespace) (validateTEI_messages P content))
  /\ (In (err msg_header_or_text) (Reduced.validateTEI_messages P content)
      <-> In (err msg_teiHeader) (validateTEI_messages P content)
          \/ In (err msg_text) (validateTEI_messages P content))
  /\ (validateTEI_messages P content = [ok msg_conforms] ->
      Reduced.validateTEI_messages P content = [ok msg_conforms])
  /\ length (Reduced.validateTEI_messages P content)
     <= length (validateTEI_messages P content).
Proof.
  destruct (validateTEI_messages_shape P content)
    as [(m & -> & -> & Hm)|(d & tei & _ & _ & _ & -> & ->)].
  - split; [tauto|]. split; [tauto|]. split; [|split; [tauto|lia]].
    split.
    + intros H. exfalso. revert H. apply not_caught_single; auto.
      * do 3 right. now left.
      * vm_compute. discriminate.
    + intros [H|H]; exfalso; revert H; apply not_caught_single; auto.
      * do 4 right. now left.
      * vm_compute. discriminate.
      * do 5 right. now left.
      * vm_compute. discriminate.
  - split; [|split; [|split; [|split]]].
    + rewrite in_rules_reduced, in_rules_required by (vm_compute; discriminate).
      split; intros H; exfalso.
      * unfold missing_reduced in H. destruct (_ || _); simpl in H; [|tauto].
        destruct H as [H|[]]. vm_compute in H. discriminate.
      * apply missing_required_incl in H. revert H. vm_compute. intuition discriminate.
    + rewrite !in_rules_namespace; [tauto| |].
      * intros H. apply missing_required_incl in H. revert H.
        vm_compute. intuition discriminate.
      * unfold missing_reduced. destruct (_ || _); simpl; [|tauto].
        intros [H|[]]. vm_compute in H. discriminate.
    + rewrite in_rules_reduced, !in_rules_required by (vm_compute; discriminate).
      apply missing_reduced_iff.
    + intros H. apply conclude_ok_nil in H; [|apply all_errors_rules].
      apply app_eq_nil in H. destruct H as [Hn Hm]. rewrite Hn.
      assert (Hr : missing_reduced tei = []).
      { pose proof (missing_reduced_length tei) as Hl.
        destruct (missing_required tei); [|discriminate].
        destruct (missing_reduced tei); [reflexivity|simpl in Hl; lia]. }
      now rewrite Hr.
    + pose proof (missing_reduced_length tei) as Hl.
      destruct (namespace_ok tei); simpl.
      * destruct (missing_reduced tei) as [|a l], (missing_required tei) as [|b k];
          simpl in *; rewrite ?length_map; lia.
      * rewrite !length_map. lia.
Qed.

Lemma reduced_checker_is_coarser_witness :
  Reduced.validateTEI_messages sample_platform (text_of conforming_root) = [ok msg_conforms].
Proof.
  destruct (reduced_checker_is_coarser sample_platform (text_of conforming_root))
    as (_ & _ & _ & H & _).
  apply H. reflexivity.
Defined.

(** ** What the checkers do not look at *)

Lemma names_only_tagName e : tagName (names_only e) = tagName e.
Proof. now destruct e. Qed.

Lemma names_only_childNodes e :
  childNodes (names_only e)
  = flat_map (fun c => match c with
                       | inl k => [inl (names_only k)]
                       | inr _ => []
                       end) (childNodes e).
Proof. now destruct e. Qed.

Lemma names_only_inclusive_descendants e :
  inclusive_descendants (names_only e) = map names_only (inclusive_descendants e).
Proof.
  induction e as [e IH] using Element_nested_ind.
  rewrite (inclusive_descendants_eq (names_only e)), (inclusive_descendants_eq e).
  simpl map. f_equal. rewrite !descendants_eq, names_only_childNodes.
  induction (childNodes e) as [|c cs IHcs]; [reflexivity|].
  assert (Hcs : forall k, In (inl k) cs ->
                  inclusive_descendants (names_only k)
                  = map names_only (inclusive_descendants k))
    by (intros k Hk; apply IH; now right).
  destruct c as [k|d]; simpl.
  - rewrite map_app. f_equal; [apply IH; now left|now apply IHcs].
  - now apply IHcs.
Qed.

Lemma names_only_descendants e :
  descendants (names_only e) = map names_only (descendants e).
Proof.
  unfold descendants. rewrite names_only_inclusive_descendants.
  now destruct (inclusive_descendants e).
Qed.

Lemma find_names_only l name :
  item0 (filter (fun k => js_eqb (tagName k) name) (map names_only l))
  = option_map names_only (item0 (filter (fun k => js_eqb (tagName k) name) l)).
Proof.
  induction l as [|k l IH]; [reflexivity|]. simpl.
  rewrite names_only_tagName. destruct (js_eqb (tagName k) name); [reflexivity|exact IH].
Qed.

Lemma names_only_first_named e name :
  first_named (names_only e) name = option_map names_only (first_named e name).
Proof.
  unfold first_named, getElementsByTagName. rewrite names_only_descendants.
  apply find_names_only.
Qed.

Lemma names_only_lacks e name : lacks (names_only e) name = lacks e name.
Proof.
  unfold lacks. rewrite names_only_first_named. now destruct (first_named e name).
Qed.

Lemma skeleton_tagName e : tagName (skeleton e) = tagName e.
Proof. now destruct e. Qed.

Lemma skeleton_namespaceURI e : namespaceURI (skeleton e) = namespaceURI e.
Proof. now destruct e. Qed.

Lemma skeleton_descendants e : descendants (skeleton e) = map names_only (descendants e).
Proof.
  rewrite <- names_only_descendants, !descendants_eq. reflexivity.
Qed.

Lemma skeleton_first_named e name :
  first_named (skeleton e) name = option_map names_only (first_named e name).
Proof.
  unfold first_named, getElementsByTagName. rewrite skeleton_descendants.
  apply find_names_only.
Qed.

Lemma skeleton_lacks e name : lacks (skeleton e) name = lacks e name.
Proof.
  unfold lacks. rewrite skeleton_first_named. now destruct (first_named e name).
Qed.

Lemma skeleton_missing_required tei :
  missing_required (skeleton tei) = missing_required tei.
Proof.
  unfold missing_required. rewrite !skeleton_lacks, !skeleton_first_named.
  destruct (first_named tei (js "teiHeader")) as [h|];
    destruct (first_named tei (js "text")) as [t|]; simpl;
    rewrite ?names_only_lacks, ?names_only_first_named;
    try destruct (first_named h (js "fileDesc")) as [fd|]; simpl;
    rewrite ?names_only_lacks, ?names_only_first_named;
    try destruct (first_named fd (js "titleStmt")) as [ts|]; simpl;
    rewrite ?names_only_lacks; reflexivity.
Qed.

Lemma skeleton_missing_reduced tei :
  missing_reduced (skeleton tei) = missing_reduced tei.
Proof. unfold missing_reduced. now rewrite !skeleton_lacks. Qed.

Lemma skeleton_checkStructure root :
  checkStructure (option_map skeleton root) = checkStructure root
  /\ Reduced.checkStructure (option_map skeleton root) = Reduced.checkStructure root.
Proof.
  destruct root as [tei|]; [|now split]. simpl option_map.
  destruct (js_eqb_spec (tagName tei) (js "TEI")) as [Ht|Ht].
  - assert (Hs : tagName (skeleton tei) = js "TEI") by now rewrite skeleton_tagName.
    rewrite (checkStructure_root_ok _ Hs), (checkStructure_root_ok _ Ht).
    rewrite (reduced_checkStructure_root_ok _ Hs), (reduced_checkStructure_root_ok _ Ht).
    unfold namespace_ok.
    now rewrite skeleton_namespaceURI, skeleton_missing_required, skeleton_missing_reduced.
  - destruct (checkStructure_bad_root (Some tei)) as [-> ->]; [right; eauto|].
    apply checkStructure_bad_root. right. exists (skeleton tei).
    split; [reflexivity|]. now rewrite skeleton_tagName.
Qed.

(** X11. The checkers look at nothing but the namespace of the root and the
    names of the elements, their nesting and order: two buffers whose parsed
    documents have the same root namespace and the same elements, once the
    attributes, the namespaces of the elements below the root, the text, the
    comments and the other nodes that are not elements are left out, get the
    same messages, from [tei-editor.tsx] and from the reduced variants. *)
Theorem validateTEI_reads_elements_only (P Q : Platform) (c c' : js_value)
    (d : Document P) (d' : Document Q) :
  parseFromString P (ToString c) = Normal d ->
  parseFromString Q (ToString c') = Normal d' ->
  option_map skeleton (documentElement P d) = option_map skeleton (documentElement Q d') ->
  validateTEI_messages P c = validateTEI_messages Q c'
  /\ Reduced.validateTEI_messages P c = Reduced.validateTEI_messages Q c'.
Proof.
  intros Hp Hq Hs.
  destruct (validateTEI_messages_parsed P c d Hp) as [-> ->].
  destruct (validateTEI_messages_parsed Q c' d' Hq) as [-> ->].
  destruct (skeleton_checkStructure (documentElement P d)) as [<- <-].
  destruct (skeleton_checkStructure (documentElement Q d')) as [<- <-].
  now rewrite Hs.
Qed.

Lemma validateTEI_reads_elements_only_witness :
  validateTEI_messages decorated_platform (text_of decorated_root)
  = validateTEI_messages decorated_platform (text_of undeclared_root).
Proof.
  destruct (validateTEI_reads_elements_only
              decorated_platform decorated_platform
              (text_of decorated_root) (text_of undeclared_root)
              decorated_root undeclared_root eq_refl eq_refl eq_refl)
    as [H _].
  exact H.
Defined.

(** The two documents as the parser reads them, and their messages. *)
Example decorated_texts :
  text_of decorated_root
  = Some (js "<TEI xmlns=" ++ [QUOT] ++ TEI_NS ++ [QUOT] ++ js " xml:lang=" ++ [QUOT]
            ++ js "it" ++ [QUOT]
            ++ js "><!-- draft --><teiHeader>x<fileDesc/></teiHeader>y<text><body>z</body></text></TEI>")
  /\ text_of undeclared_root
     = Some (js "<TEI xmlns=" ++ [QUOT] ++ TEI_NS ++ [QUOT]
               ++ js "><teiHeader xmlns=" ++ [QUOT; QUOT]
               ++ js "><fileDesc/></teiHeader><text><body/></text></TEI>").
Proof. split; reflexivity. Qed.

Example decorated_messages :
  validateTEI_messages decorated_platform (text_of decorated_root)
  = [err (msg_in_fileDesc (js "titleStmt")); err (msg_in_fileDesc (js "publicationStmt"));
     err (msg_in_fileDesc (js "sourceDesc"))].
Proof. reflexivity. Qed.

(* ===================================================================== *)
(** * Further properties of the formatter *)
(* ===================================================================== *)

(** ** The shape of a formatted text *)

Lemma normalize_lines s :
  exists ls,
    ls <> []
    /\ normalize s = join_lines (map trim ls)
    /\ Forall (fun l => ~ In LF l) ls
    /\ Forall (fun l => has_gap l = false) ls
    /\ Forall (fun l => replace_all tag l = l) ls.
Proof.
  unfold normalize.
  set (u := replace_all tag (replace_all tag_gap s)).
  assert (Hgap : has_gap u = false)
    by (apply replace_tag_no_gap, replace_tag_gap_no_gap).
  assert (Hfix : replace_all tag u = u) by apply replace_tag_idempotent.
  exists (split_lines u). split; [apply split_lines_nonempty|]. split; [reflexivity|].
  split; [apply split_lines_no_LF|]. split; [|now apply replace_tag_fixed_lines].
  apply has_gap_join. now rewrite join_split_lines.
Qed.

Lemma trim_fixed_ends s :
  no_leading_space (trim s) = true /\ no_leading_space (rev (trim s)) = true.
Proof.
  split.
  - unfold trim. apply trimEnd_no_leading_space, trimStart_no_leading_space.
  - unfold trim, trimEnd. rewrite rev_involutive. apply trimStart_no_leading_space.
Qed.

Lemma normalize_shape s :
  has_gap (normalize s) = false
  /\ replace_all tag_gap (normalize s) = normalize s
  /\ replace_all tag (normalize s) = normalize s
  /\ Forall (fun l => no_leading_space l = true /\ no_leading_space (rev l) = true)
            (split_lines (normalize s))
  /\ map trim (split_lines (normalize s)) = split_lines (normalize s).
Proof.
  destruct (normalize_lines s) as (ls & Hne & -> & HnoLF & Hgap & Hfix).
  assert (Hg : has_gap (join_lines (map trim ls)) = false).
  { apply has_gap_join, Forall_forall. intros l Hl. apply in_map_iff in Hl.
    destruct Hl as (l0 & <- & Hl0). apply trim_no_gap.
    rewrite Forall_forall in Hgap. auto. }
  assert (Hsplit : split_lines (join_lines (map trim ls)) = map trim ls).
  { apply split_join_lines.
    - destruct ls; [congruence|discriminate].
    - apply Forall_forall. intros l Hl. apply in_map_iff in Hl.
      destruct Hl as (l0 & <- & Hl0). intros Hin. apply trim_In in Hin.
      rewrite Forall_forall in HnoLF. now apply (HnoLF l0). }
  split; [exact Hg|]. split; [now apply replace_tag_gap_fixed|]. split; [|split].
  - rewrite replace_tag_join, map_map. f_equal. apply map_ext_in. intros l Hl.
    apply trim_replace_tag. rewrite Forall_forall in Hfix. auto.
  - rewrite Hsplit. apply Forall_forall. intros l Hl. apply in_map_iff in Hl.
    destruct Hl as (l0 & <- & _). apply trim_fixed_ends.
  - rewrite Hsplit, map_map. apply map_ext. intros l. apply trim_idempotent.
Qed.

(** X12. Whatever the serialised text, the text [formatXML] makes of it is
    in canonical form: it holds no [>] immediately followed by [<]; the
    second replacement (spaces inside tags) finds nothing more to change in
    it; and none of its lines begins or ends with a space. Conversely the
    texts in that form are exactly those the three passes leave as they
    are. *)
Theorem normalize_canonical (s : js_string) :
  (has_gap (normalize s) = false
   /\ replace_all tag (normalize s) = normalize s
   /\ Forall (fun l => no_leading_space l = true /\ no_leading_space (rev l) = true)
             (split_lines (normalize s)))
  /\ (normalize s = s <->
      has_gap s = false
      /\ replace_all tag s = s
      /\ map trim (split_lines s) = split_lines s).
Proof.
  destruct (normalize_shape s) as (H1 & H2 & H3 & H4 & H5).
  split; [now repeat split|]. split.
  - intros E. rewrite E in *. now repeat split.
  - intros (G1 & G2 & G3). unfold normalize.
    rewrite (replace_tag_gap_fixed _ G1), G2, G3. apply join_split_lines.
Qed.

(** ** What formatting leaves alone *)

Lemma ink_app a b : ink (a ++ b) = ink a ++ ink b.
Proof. apply filter_app. Qed.

Lemma ink_spaces w : Forall (fun c => is_space c = true) w -> ink w = [].
Proof.
  induction 1 as [|c w Hc _ IH]; [reflexivity|]. unfold ink in *. simpl.
  now rewrite Hc.
Qed.

Lemma ink_cons_space c s : is_space c = true -> ink (c :: s) = ink s.
Proof. intros H. unfold ink. simpl. now rewrite H. Qed.

Lemma ink_cons_other c s : is_space c = false -> ink (c :: s) = c :: ink s.
Proof. intros H. unfold ink. simpl. now rewrite H. Qed.

Lemma ink_skipn_greedy t : ink (skipn (length (greedy is_space t)) t) = ink t.
Proof.
  induction t as [|c t IH]; [reflexivity|]. cbn [greedy].
  destruct (is_space c) eqn:Hc; [|reflexivity].
  cbn [length skipn]. now rewrite IH, ink_cons_space.
Qed.

Lemma ink_replace_tag_gap s : ink (replace_all tag_gap s) = ink s.
Proof.
  induction s as [s IH] using length_ind. destruct s as [|c t]; [reflexivity|].
  rewrite replace_all_cons.
  destruct (N.eqb c GT && starts_with LT t) eqn:E.
  - destruct (tag_gap_Some c t E) as (t' & Ht' & Hm). rewrite Hm. subst t.
    apply andb_true_iff in E. destruct E as [E _]. apply N.eqb_eq in E. subst c.
    change (skipn (1 + length (greedy (N.eqb SLASH) t')) (LT :: t'))
      with (skipn (length (greedy (N.eqb SLASH) t')) t').
    change (GT :: LF :: LT :: greedy (N.eqb SLASH) t')
      with ([GT; LF; LT] ++ greedy (N.eqb SLASH) t').
    rewrite !ink_app.
    rewrite IH by (simpl; rewrite length_skipn; lia).
    rewrite <- app_assoc, <- ink_app, greedy_skipn. reflexivity.
  - rewrite (tag_gap_None c t E).
    destruct (is_space c) eqn:Hc.
    + rewrite !ink_cons_space by exact Hc. apply IH. simpl. lia.
    + rewrite !ink_cons_other by exact Hc. f_equal. apply IH. simpl. lia.
Qed.

Lemma ink_collapse s : ink (replace_all space_run s) = ink s.
Proof.
  induction s as [s IH] using length_ind. destruct s as [|c t]; [reflexivity|].
  destruct (is_space c) eqn:Hc.
  - rewrite (collapse_space c t Hc), ink_cons_space, ink_cons_space by auto.
    rewrite IH by (simpl; rewrite length_skipn; lia). apply ink_skipn_greedy.
  - rewrite (collapse_nonspace c t Hc), !ink_cons_other by exact Hc.
    f_equal. apply IH. simpl. lia.
Qed.

Lemma ink_replace_tag s : ink (replace_all tag s) = ink s.
Proof.
  induction s as [s IH] using length_ind. destruct s as [|c t]; [reflexivity|].
  destruct (replace_tag_cases c t) as [(g & r & -> & -> & Hp & ->)|[_ ->]].
  - change (LT :: replace_all space_run g ++ GT :: replace_all tag r)
      with ([LT] ++ replace_all space_run g ++ [GT] ++ replace_all tag r).
    change (LT :: g ++ GT :: r) with ([LT] ++ g ++ [GT] ++ r).
    rewrite !ink_app, ink_collapse.
    rewrite IH by (simpl; rewrite length_app; simpl; lia). reflexivity.
  - destruct (is_space c) eqn:Hc.
    + rewrite !ink_cons_space by exact Hc. apply IH. simpl. lia.
    + rewrite !ink_cons_other by exact Hc. f_equal. apply IH. simpl. lia.
Qed.

Lemma ink_trim l : ink (trim l) = ink l.
Proof.
  destruct (trim_split l) as (w1 & w2 & H1 & H2 & E).
  rewrite E at 2. rewrite !ink_app, (ink_spaces w1 H1), (ink_spaces w2 H2).
  now rewrite app_nil_r.
Qed.

Lemma ink_join ls : ink (join_lines ls) = concat (map ink ls).
Proof.
  induction ls as [|l ls IH]; [reflexivity|]. destruct ls as [|l' ls].
  - simpl. now rewrite app_nil_r.
  - change (join_lines (l :: l' :: ls)) with (l ++ LF :: join_lines (l' :: ls)).
    rewrite ink_app, ink_cons_space by reflexivity. rewrite IH. reflexivity.
Qed.

(** X13. The three text passes of [formatXML] only touch spaces: the code
    units that are not spaces are the same, in the same order, in the
    serialised text and in the formatted one. *)
Theorem normalize_only_touches_spaces (s : js_string) :
  ink (normalize s) = ink s.
Proof.
  unfold normalize. rewrite ink_join, map_map.
  rewrite (map_ext _ ink) by apply ink_trim.
  rewrite <- ink_join, join_split_lines, ink_replace_tag.
  apply ink_replace_tag_gap.
Qed.

(* ===================================================================== *)
(** * Further properties of the reduced checker and of sessions *)
(* ===================================================================== *)

Lemma reduced_checkStructure_ok root :
  Reduced.checkStructure root = [ok msg_conforms] <->
  exists tei, root = Some tei /\ tagName tei = js "TEI"
              /\ namespace_ok tei = true /\ missing_reduced tei = [].
Proof.
  split.
  - destruct root as [tei|]; [|discriminate].
    destruct (js_eqb_spec (tagName tei) (js "TEI")) as [Ht|Ht].
    + rewrite (reduced_checkStructure_root_ok _ Ht). intros H.
      apply conclude_ok_nil in H; [|apply all_errors_rules].
      apply app_eq_nil in H. destruct H as [Hn Hm]. exists tei. repeat split; auto.
      * now destruct (namespace_ok tei).
      * now destruct (missing_reduced tei).
    + destruct (checkStructure_bad_root (Some tei)) as [_ ->]; [right; eauto|discriminate].
  - intros (tei & -> & Ht & Hn & Hm).
    now rewrite (reduced_checkStructure_root_ok _ Ht), Hn, Hm.
Qed.

Lemma namespace_ok_iff tei : namespace_ok tei = true <-> namespaceURI tei = Some TEI_NS.
Proof.
  split; [apply namespace_ok_true|]. unfold namespace_ok. intros ->. apply js_eqb_refl.
Qed.

Lemma missing_reduced_nil tei :
  missing_reduced tei = [] <->
  has_descendant tei (js "teiHeader") /\ has_descendant tei (js "text").
Proof.
  rewrite <- !lacks_false_iff. unfold missing_reduced.
  destruct (lacks tei (js "teiHeader")), (lacks tei (js "text")); simpl;
    intuition discriminate.
Qed.

(** X14. The reduced checker of [part_000] displays the success message
    exactly when the parser returns a document whose root is named [TEI], is
    in the TEI namespace, and has an element named [teiHeader] and an element
    named [text] below it, at any depth. *)
Theorem reduced_success_iff (P : Platform) (content : js_value) :
  Reduced.validateTEI_messages P content = [ok msg_conforms] <->
  exists d tei,
    parseFromString P (ToString content) = Normal d
    /\ documentElement P d = Some tei
    /\ tagName tei = js "TEI"
    /\ namespaceURI tei = Some TEI_NS
    /\ has_descendant tei (js "teiHeader")
    /\ has_descendant tei (js "text").
Proof.
  unfold Reduced.validateTEI_messages, Reduced.validateTEI_try, bind.
  destruct (parseFromString P (ToString content)) as [d|m].
  - rewrite reduced_checkStructure_ok. split.
    + intros (tei & Hd & Ht & Hn & Hm). exists d, tei.
      apply namespace_ok_iff in Hn. apply missing_reduced_nil in Hm. tauto.
    + intros (d' & tei & Hp & Hd & Ht & Hn & H1 & H2). injection Hp as <-.
      exists tei. rewrite namespace_ok_iff, missing_reduced_nil. tauto.
  - split; [discriminate|]. intros (d & tei & Hp & _). discriminate.
Qed.

(** ** The growth of the log *)

Lemma record_length x st :
  length (historyRef (addToHistory x st)) <= length (historyRef st) + 1.
Proof.
  rewrite addToHistory_log, length_app, length_firstn. simpl. lia.
Qed.

Lemma handle_length P a st :
  length (historyRef (handle P a st))
  <= length (historyRef st) + (if records a then 1 else 0).
Proof.
  destruct a; cbn [handle records].
  - unfold handleContentChange. etransitivity; [apply record_length|]. simpl. lia.
  - rewrite undo_log. lia.
  - rewrite redo_log. lia.
  - unfold formatXML. destruct (formatXML_try P (xmlContent st)); simpl.
    + rewrite length_app, length_firstn. simpl. lia.
    + lia.
  - unfold validateXMLSyntax.
    destruct (validateXMLSyntax_try P (xmlContent st)) as [[ms b]|m]; simpl; lia.
  - simpl. lia.
  - simpl. lia.
Qed.

(** X15. In a session the log holds, besides the initial document, at most
    one snapshot for each edit and each click on the format button: undo,
    redo and the two validations never add a snapshot. *)
Theorem log_grows_by_records (P : Platform) (doc : js_string) (actions : list Action) :
  length (historyRef (run P actions (initial doc)))
  <= 1 + length (filter records actions).
Proof.
  change 1 with (length (historyRef (initial doc))).
  generalize (initial doc) as st.
  induction actions as [|a actions IH] using rev_ind; intros st; [simpl; lia|].
  unfold run in *. rewrite fold_left_app, filter_app, length_app. simpl.
  pose proof (handle_length P a (fold_left (fun s a0 => handle P a0 s) actions st)) as H.
  specialize (IH st). destruct (records a); simpl in *; lia.
Qed.

(** ** The order of the errors *)

Lemma missing_required_ordered tei : subseq (missing_required tei) required_msgs.
Proof.
  unfold required_msgs. rule_cases tei;
    repeat first [apply subseq_nil | apply subseq_take | apply subseq_skip].
Qed.

Lemma subseq_map {A B} (f : A -> B) l1 l2 : subseq l1 l2 -> subseq (map f l1) (map f l2).
Proof. induction 1; simpl; constructor; auto. Qed.

(** X16. What [validateTEI] of [tei-editor.tsx] displays is one of: the
    single error of the [catch] clause, the single root error, the single
    success message, or a non-empty selection of the nine other errors that
    keeps the order of the checks (namespace, [teiHeader], [text],
    [fileDesc], [titleStmt], [publicationStmt], [sourceDesc], [title],
    [body]). *)
Theorem validateTEI_messages_in_order (P : Platform) (content : js_value) :
  (exists m, parseFromString P (ToString content) = Throw m
             /\ validateTEI_messages P content = [err (msg_tei_prefix ++ m)])
  \/ validateTEI_messages P content = [err msg_root]
  \/ validateTEI_messages P content = [ok msg_conforms]
  \/ (validateTEI_messages P content <> []
      /\ subseq (validateTEI_messages P content) ordered_errors).
Proof.
  destruct (parseFromString P (ToString content)) as [d|m] eqn:Hp.
  - right. destruct (validateTEI_messages_parsed P content d Hp) as [-> _].
    destruct (documentElement P d) as [tei|]; [|now left].
    destruct (js_eqb_spec (tagName tei) (js "TEI")) as [Ht|Ht].
    + right. rewrite (checkStructure_root_ok _ Ht).
      pose proof (subseq_map err _ _ (missing_required_ordered tei)) as Hs.
      unfold ordered_errors.
      destruct (namespace_ok tei); simpl.
      * destruct (map err (missing_required tei)) as [|x l] eqn:E; [now left|].
        right. split; [discriminate|]. now apply subseq_skip.
      * right. split; [discriminate|]. now apply subseq_take.
    + left. destruct (checkStructure_bad_root (Some tei)) as [-> _]; [right; eauto|].
      reflexivity.
  - left. exists m. split; [reflexivity|].
    now destruct (validateTEI_messages_thrown P content m Hp).
Qed.
